(** * Input unification layer: gamepad adapter, direction resolver and
      edge/repeat timer

    A shallow embedding of [src/gamepad.js] (class [GamepadManager]) and of
    the per-frame part of [src/input.js] (class [InputManager]: [emit],
    [_getDominantDirFromAxes] and [update]).  Beside these: the adapter's
    [getTrigger] and [getPressedButtons], the manager's [on],
    [getActiveInputMethod], pass-through [justPressed] and the timing of
    [processNavigationInputs], and the navigation-sound functions of
    [src/main.js].

    Modelling conventions.
    - JavaScript numbers (stick axes, button values, frame timestamps) are
      rationals [Q]; every finite double is one.  Comparisons and absolute
      values are exact on doubles.  The two additions of [update] and the
      subtraction of [processNavigationInputs] round their exact result to
      the nearest double, ties to even ([round64]).  A sum beyond the
      largest double, which the code turns into [Infinity], is here a
      rational above every double, so it compares with a timestamp as
      [Infinity] does.  [NaN] and infinite inputs are not modelled.
    - [null] / [undefined] results are [None]; an array read out of range is
      [None], and the [!x], [!!x] and [x || 0] coercions are written out at
      each read.
    - Objects are records, [this] is passed explicitly and every method
      returns the new object.  [emit] calls the registered listeners, which
      live outside these files: a call of [update] returns the list of
      emitted events in emission order.
    - [console.log], the throttled diagnostics of [GamepadManager.update]
      ([_lastPadId], [_lastLogTs]), the debug overlay and the fire-and-forget
      rumble pulse do not change any field read by the code below and are
      left out.
    - [KeyboardManager] is defined in another file.  What [update] asks of
      it on a frame ([justPressed('SELECT')] and [getArrowDir?.()]) is part
      of the frame's input. *)

From Stdlib Require Import QArith Qabs Lqa Qround Qpower.
From stdpp Require Import base list strings gmap.

(** ** Numbers *)

Definition Qleb (a b : Q) : bool := Qle_bool a b.
Definition Qltb (a b : Q) : bool := negb (Qle_bool b a).

(** *** Double arithmetic

    [+] and [-] on two doubles give the double nearest the exact result,
    ties going to the even significand (IEEE 754 binary64, the only
    rounding JavaScript has).  For a positive rational [q] in the binade
    [2^e <= q < 2^(e+1)] the doubles are the multiples of [2^(e-52)], and
    of [2^(-1074)] in the subnormal range. *)

(** the [e] with [2^e <= q < 2^(e+1)], for positive [q] *)
Definition floorLog2 (q : Q) : Z :=
  let e0 := (Z.log2 (Qnum q) - Z.log2 (Z.pos (Qden q)))%Z in
  if Qle_bool (Qpower 2 e0) q then e0 else (e0 - 1)%Z.

(** the nearest integer, a tie going to the even one *)
Definition roundHalfEven (q : Q) : Z :=
  let k := Qfloor q in
  match Qcompare (q - inject_Z k) (1 # 2) with
  | Lt => k
  | Gt => (k + 1)%Z
  | Eq => if Z.even k then k else (k + 1)%Z
  end.

(** the exponent of the spacing of the doubles around a positive [q] *)
Definition ulpExp (q : Q) : Z := Z.max (floorLog2 q - 52) (-1074).

(** the double nearest a positive [q] *)
Definition roundPos (q : Q) : Q :=
  (inject_Z (roundHalfEven (q / Qpower 2 (ulpExp q))) * Qpower 2 (ulpExp q))%Q.

(** the double nearest [q] *)
Definition round64 (q : Q) : Q :=
  match Qnum q with
  | Z0 => 0
  | Zpos _ => Qred (roundPos q)
  | Zneg _ => Qred (- roundPos (- q))
  end.

(** [a + b] and [a - b] on doubles *)
Definition dadd (a b : Q) : Q := round64 (a + b).
Definition dsub (a b : Q) : Q := round64 (a - b).

(** [q] is the value of a double. *)
Definition isDouble (q : Q) : Prop := (round64 q == q)%Q.

(** ** The browser's Gamepad objects ([navigator.getGamepads()]) *)

Module Pad.
Record GamepadButton : Type := { pressed : bool; value : Q }.
Record Gamepad : Type :=
  { id : string;
    connected : bool;
    buttons : list GamepadButton;
    axes : list Q }.
End Pad.

(** ** Events delivered to listeners *)

Inductive Direction : Type := left | right | up | down.
Inductive Mode : Type := edge | repeat.
Inductive Source : Type := src_keyboard | src_gamepad.

Inductive Event : Type :=
  | select (source : Source)
  | nav (dir : Direction) (mode : Mode).

#[global] Instance Direction_eq_dec : EqDecision Direction.
Proof. solve_decision. Defined.
#[global] Instance Mode_eq_dec : EqDecision Mode.
Proof. solve_decision. Defined.
#[global] Instance Source_eq_dec : EqDecision Source.
Proof. solve_decision. Defined.
#[global] Instance Event_eq_dec : EqDecision Event.
Proof. solve_decision. Defined.

Record Stick : Type := { x : Q; y : Q }.

Record Dpad : Type :=
  { dpad_up : bool; dpad_down : bool; dpad_left : bool; dpad_right : bool }.

(** ** [GamepadManager] (src/gamepad.js) *)

Module GamepadManager.

Record t : Type :=
  { deadzone : Q;              (* 0.15, "Deadzone for analog sticks" *)
    triggerThreshold : Q;      (* 0.1 *)
    pad : option Pad.Gamepad;
    _prevButtons : list bool;
    _justPressed : list bool;
    axes : list Q }.

(** [constructor()] *)
Definition new : t :=
  {| deadzone := 0.15;
     triggerThreshold := 0.1;
     pad := None;
     _prevButtons := [];
     _justPressed := [];
     axes := [] |}.

(** [p => p && p.connected] *)
Definition live (p : option Pad.Gamepad) : bool :=
  match p with
  | Some q => Pad.connected q
  | None => false
  end.

(** [connected[0] || null] for
    [connected = Array.from(pads).filter(p => p && p.connected)] *)
Definition firstConnected (pads : list (option Pad.Gamepad))
  : option Pad.Gamepad :=
  match List.filter live pads with
  | p :: _ => p
  | [] => None
  end.

(** [btns.map((now, i) => now && !this._prevButtons[i])]: a read past
    the end of [_prevButtons] is [undefined], whose negation is [true]. *)
Definition pressEdges (prev btns : list bool) : list bool :=
  imap (fun i now => now && negb (default false (prev !! i))) btns.

(** [update()], given what [navigator.getGamepads()] returns *)
Definition update (g : t) (pads : list (option Pad.Gamepad)) : t :=
  match firstConnected pads with
  | Some p =>
      let btns := map Pad.pressed (Pad.buttons p) in
      {| deadzone := deadzone g;
         triggerThreshold := triggerThreshold g;
         pad := Some p;
         _prevButtons := btns;
         _justPressed := pressEdges (_prevButtons g) btns;
         axes := Pad.axes p |}
  | None =>
      {| deadzone := deadzone g;
         triggerThreshold := triggerThreshold g;
         pad := None;
         _prevButtons := [];
         _justPressed := [];
         axes := [0; 0; 0; 0]%Q |}
  end.

(** [isConnected()]: [!!this.pad] *)
Definition isConnected (g : t) : bool :=
  match pad g with Some _ => true | None => false end.

(** [this.axes[i] || 0] *)
Definition axisOrZero (g : t) (i : nat) : Q := default 0%Q (axes g !! i).

(** [getStick(name)] *)
Definition getStick (g : t) (name : string) : Stick :=
  match pad g with
  | None => {| x := 0; y := 0 |}
  | Some _ =>
      let x0 := axisOrZero g 0 in
      let y0 := axisOrZero g 1 in
      if decide (name = "LEFT"%string)
      then {| x := x0; y := y0 |}
      else {| x := 0; y := 0 |}
  end.

(** [!!b[i]?.pressed] *)
Definition pressedAt (b : list Pad.GamepadButton) (i : nat) : bool :=
  default false (Pad.pressed <$> b !! i).

(** [getDpad()] *)
Definition getDpad (g : t) : option Dpad :=
  match pad g with
  | None => None
  | Some p =>
      let b := Pad.buttons p in
      Some {| dpad_up := pressedAt b 12;
              dpad_down := pressedAt b 13;
              dpad_left := pressedAt b 14;
              dpad_right := pressedAt b 15 |}
  end.

(** the literal [map] of [justPressed] *)
Definition justPressedMap : gmap string nat :=
  list_to_map
    [("A", 0); ("B", 1); ("X", 2); ("Y", 3); ("LB", 4); ("RB", 5);
     ("LT", 6); ("RT", 7); ("VIEW", 8); ("MENU", 9)]%string%nat.

(** [justPressed(name)] *)
Definition justPressed (g : t) (name : string) : bool :=
  match pad g with
  | None => false
  | Some _ =>
      match justPressedMap !! name with
      | Some i => default false (_justPressed g !! i)
      | None => false
      end
  end.

(** [this.BUTTONS], in declaration order ([Object.entries] walks it in
    that order) *)
Definition BUTTONS : list (string * nat) :=
  [("A", 0); ("B", 1); ("X", 2); ("Y", 3); ("LB", 4); ("RB", 5);
   ("LT", 6); ("RT", 7); ("VIEW", 8); ("MENU", 9); ("LS", 10); ("RS", 11);
   ("UP", 12); ("DOWN", 13); ("LEFT", 14); ("RIGHT", 15);
   ("HOME", 16)]%string%nat.

(** [this.BUTTONS[name]] *)
Definition buttonIndex (name : string) : option nat :=
  (list_to_map BUTTONS : gmap string nat) !! name.

(** [getTrigger(triggerName)].  A [GamepadButton] always carries a
    [value], so the [btn.value !== undefined] test succeeds. *)
Definition getTrigger (g : t) (triggerName : string) : Q :=
  match pad g with
  | None => 0
  | Some p =>
      match buttonIndex triggerName with
      | None => 0
      | Some idx =>
          match Pad.buttons p !! idx with
          | Some btn => Pad.value btn
          | None => 0
          end
      end
  end.

(** [b.pressed || (b.value && b.value > this.triggerThreshold)]: a value
    of 0 is falsy. *)
Definition held (g : t) (b : Pad.GamepadButton) : bool :=
  Pad.pressed b
  || (negb (Qeq_bool (Pad.value b) 0) && Qltb (triggerThreshold g) (Pad.value b)).

(** the loop body's test [b && (...)] for the entry [(name, idx)] *)
Definition listed (g : t) (p : Pad.Gamepad) (e : string * nat) : bool :=
  match Pad.buttons p !! snd e with
  | Some b => held g b
  | None => false
  end.

(** [getPressedButtons()] *)
Definition getPressedButtons (g : t) : list string :=
  match pad g with
  | None => []
  | Some p => map fst (List.filter (listed g p) BUTTONS)
  end.

End GamepadManager.

(** ** [InputManager] (src/input.js) *)

(** What one frame supplies from outside the two classes. *)
Record Frame : Type :=
  { ts : Q;                                (* the timestamp passed to update *)
    pads : list (option Pad.Gamepad);      (* navigator.getGamepads() *)
    kSelect : bool;                        (* keyboard.justPressed('SELECT') *)
    kArrow : option Direction }.           (* keyboard.getArrowDir?.() *)

Module InputManager.

Record t : Type :=
  { gamepad : GamepadManager.t;
    preferGamepad : bool;
    _activeDir : option Direction;
    _nextRepeatAt : Q;
    _firstDelay : Q;
    _repeatDelay : Q;
    _deadzone : Q }.

(** [constructor()] *)
Definition new : t :=
  {| gamepad := GamepadManager.new;
     preferGamepad := false;
     _activeDir := None;
     _nextRepeatAt := 0;
     _firstDelay := 220;
     _repeatDelay := 85;
     _deadzone := 0.32 |}.

Definition set_gamepad (m : t) (g : GamepadManager.t) : t :=
  {| gamepad := g;
     preferGamepad := preferGamepad m;
     _activeDir := _activeDir m;
     _nextRepeatAt := _nextRepeatAt m;
     _firstDelay := _firstDelay m;
     _repeatDelay := _repeatDelay m;
     _deadzone := _deadzone m |}.

Definition set_preferGamepad (m : t) (b : bool) : t :=
  {| gamepad := gamepad m;
     preferGamepad := b;
     _activeDir := _activeDir m;
     _nextRepeatAt := _nextRepeatAt m;
     _firstDelay := _firstDelay m;
     _repeatDelay := _repeatDelay m;
     _deadzone := _deadzone m |}.

Definition set_timer (m : t) (d : option Direction) (at_ : Q) : t :=
  {| gamepad := gamepad m;
     preferGamepad := preferGamepad m;
     _activeDir := d;
     _nextRepeatAt := at_;
     _firstDelay := _firstDelay m;
     _repeatDelay := _repeatDelay m;
     _deadzone := _deadzone m |}.

(** [_getDominantDirFromAxes(ax, ay)] *)
Definition _getDominantDirFromAxes (m : t) (ax ay : Q) : option Direction :=
  let axAbs := Qabs ax in
  let ayAbs := Qabs ay in
  if Qltb axAbs (_deadzone m) && Qltb ayAbs (_deadzone m) then None
  else if Qleb ayAbs axAbs then
    (if Qltb 0 ax then Some right else Some left)
  else
    (if Qltb 0 ay then Some down else Some up).

(** [update], lines 83-89: auto-switch once a pad is detected *)
Definition autoSwitch (m : t) : t :=
  if GamepadManager.isConnected (gamepad m)
  then set_preferGamepad m true
  else m.

(** [update], lines 91-101: the select event *)
Definition selectEvents (m : t) (f : Frame) : list Event :=
  let aPressed :=
    if preferGamepad m then GamepadManager.justPressed (gamepad m) "A"
    else false in
  if aPressed || kSelect f
  then [select (if preferGamepad m then src_gamepad else src_keyboard)]
  else [].

(** [update], lines 106-113: the D-pad chain *)
Definition dpadDir (m : t) : option Direction :=
  match GamepadManager.getDpad (gamepad m) with
  | Some dpad =>
      if preferGamepad m then
        if dpad_left dpad then Some left
        else if dpad_right dpad then Some right
        else if dpad_up dpad then Some up
        else if dpad_down dpad then Some down
        else None
      else None
  | None => None
  end.

(** [update], lines 104-124: the direction fed to the timer *)
Definition resolveDir (m : t) (f : Frame) : option Direction :=
  let dir := dpadDir m in
  let dir :=
    match dir with
    | Some _ => dir
    | None =>
        if preferGamepad m then
          let s := GamepadManager.getStick (gamepad m) "LEFT" in
          _getDominantDirFromAxes m (x s) (y s)
        else None
    end in
  match dir with
  | Some _ => dir
  | None => kArrow f
  end.

(** [update], lines 126-144: repeat/edge handling *)
Definition navStep (m : t) (now : Q) (dir : option Direction)
  : t * list Event :=
  match dir with
  | None => (set_timer m None 0, [])
  | Some d =>
      if negb (bool_decide (_activeDir m = Some d)) then
        (set_timer m (Some d) (dadd now (_firstDelay m)), [nav d edge])
      else if Qleb (_nextRepeatAt m) now then
        (set_timer m (_activeDir m) (dadd now (_repeatDelay m)),
         [nav d repeat])
      else (m, [])
  end.

(** [update], lines 80-89: poll the pad, then the preference policy
    ([this.keyboard.update()] acts on the keyboard object only) *)
Definition poll (m : t) (f : Frame) : t :=
  autoSwitch (set_gamepad m (GamepadManager.update (gamepad m) (pads f))).

(** [update(ts)] *)
Definition update (m : t) (f : Frame) : t * list Event :=
  let m := poll m f in
  let sel := selectEvents m f in
  let dir := resolveDir m f in
  let '(m, navs) := navStep m (ts f) dir in
  (m, sel ++ navs).

(** The direction that [update] resolves on frame [f] when called on
    manager [m]: the value of its local [dir] at line 126. *)
Definition resolved (m : t) (f : Frame) : option Direction :=
  resolveDir (poll m f) f.

(** The frame loop: [tick] calls [update] once per frame.  [run] lists,
    frame by frame, the manager after the call and the events the call
    emitted; [final] is the manager after the last frame; [dirs] lists the
    direction resolved on each frame. *)
Fixpoint run (m : t) (fs : list Frame) : list (t * list Event) :=
  match fs with
  | [] => []
  | f :: fs' => update m f :: run (fst (update m f)) fs'
  end.

Fixpoint final (m : t) (fs : list Frame) : t :=
  match fs with
  | [] => m
  | f :: fs' => final (fst (update m f)) fs'
  end.

Fixpoint dirs (m : t) (fs : list Frame) : list (option Direction) :=
  match fs with
  | [] => []
  | f :: fs' => resolved m f :: dirs (fst (update m f)) fs'
  end.

(** [isGamepadConnected()] *)
Definition isGamepadConnected (m : t) : bool :=
  GamepadManager.isConnected (gamepad m).

(** [getActiveInputMethod()] *)
Definition getActiveInputMethod (m : t) : Source :=
  if preferGamepad m && GamepadManager.isConnected (gamepad m)
  then src_gamepad
  else src_keyboard.

(** [justPressed(buttonName)]: the pass-through query; [kJustPressed] is
    [this.keyboard.justPressed]. *)
Definition justPressed (m : t) (kJustPressed : string -> bool)
           (buttonName : string) : bool :=
  if preferGamepad m && GamepadManager.isConnected (gamepad m)
  then GamepadManager.justPressed (gamepad m) buttonName
  else kJustPressed buttonName.

(** *** The event system

    [this.eventListeners] is a [Map] from event type to the array of
    callbacks registered for it.  Callbacks are opaque values of a type
    [H]; [emit] returns the calls it makes, in order, each a callback with
    the payload it receives.  (The debug overlay refresh at the end of
    [emit] is left out.) *)

(** [on(type, callback)] *)
Definition on {H : Type} (ls : gmap string (list H)) (type : string)
           (callback : H) : gmap string (list H) :=
  let ls := match ls !! type with
            | Some _ => ls
            | None => <[type := []]> ls
            end in
  match ls !! type with
  | Some cbs => <[type := cbs ++ [callback]]> ls
  | None => ls
  end.

(** [emit(type, payload)] *)
Definition emit {H P : Type} (ls : gmap string (list H)) (type : string)
           (payload : P) : list (H * P) :=
  match ls !! type with
  | Some cbs => map (fun callback => (callback, payload)) cbs
  | None => []
  end.

(** *** The earlier timer of [processNavigationInputs]

    [processNavigationInputs] keeps its own timing fields and emits
    [nav] events that carry the source instead of a mode. *)

Record Timing : Type :=
  { lastInputTime : Q;
    currentDirection : option Direction;
    isFirstInput : bool;
    initialDelay : Q;
    repeatRate : Q }.

(** the values the constructor gives these fields *)
Definition newTiming : Timing :=
  {| lastInputTime := 0;
     currentDirection := None;
     isFirstInput := true;
     initialDelay := 220;
     repeatRate := 85 |}.

(** the payload [{ dir: direction, source }] *)
Record SourcedNav : Type := { sn_dir : Direction; sn_source : Source }.

(** [processNavigationInputs], lines 205-234: the timing of the direction
    and source chosen at lines 196-203, at [now = Date.now()] *)
Definition navTiming (tm : Timing) (now : Q) (direction : option Direction)
           (source : Source) : Timing * list SourcedNav :=
  match direction with
  | Some d =>
      if negb (bool_decide (direction = currentDirection tm)) then
        ({| lastInputTime := now;
            currentDirection := direction;
            isFirstInput := true;
            initialDelay := initialDelay tm;
            repeatRate := repeatRate tm |},
         [{| sn_dir := d; sn_source := source |}])
      else
        let timeSinceLastInput := dsub now (lastInputTime tm) in
        let requiredDelay :=
          if isFirstInput tm then initialDelay tm else repeatRate tm in
        if Qleb requiredDelay timeSinceLastInput then
          ({| lastInputTime := now;
              currentDirection := currentDirection tm;
              isFirstInput := false;
              initialDelay := initialDelay tm;
              repeatRate := repeatRate tm |},
           [{| sn_dir := d; sn_source := source |}])
        else (tm, [])
  | None =>
      ({| lastInputTime := lastInputTime tm;
          currentDirection := None;
          isFirstInput := true;
          initialDelay := initialDelay tm;
          repeatRate := repeatRate tm |}, [])
  end.

End InputManager.

(** ** Navigation sounds (src/main.js)

    The module-level variables [audioUnlocked], [focusRegion] and
    [pendingSounds] form the state.  [playType] dispatches to one of three
    play functions, which act on audio elements; a call returns the play
    functions it invokes, in order. *)

Module Main.

Record Audio : Type :=
  { audioUnlocked : bool;
    focusRegion : string;
    pendingSounds : list string }.

(** the initial values of the three variables *)
Definition start : Audio :=
  {| audioUnlocked := false; focusRegion := "nav"; pendingSounds := [] |}.

Inductive Play : Type := playNavSound | playCarouselSound | playCarouselNavSound.

(** [playType(type)] *)
Definition playType (type : string) : list Play :=
  if decide (type = "nav"%string) then [playNavSound]
  else if decide (type = "carousel"%string) then [playCarouselSound]
  else if decide (type = "carouselRow"%string) then [playCarouselNavSound]
  else [].

(** [queueOrPlay(type)] *)
Definition queueOrPlay (a : Audio) (type : string) : Audio * list Play :=
  if audioUnlocked a then (a, playType type)
  else ({| audioUnlocked := audioUnlocked a;
           focusRegion := focusRegion a;
           pendingSounds := pendingSounds a ++ [type] |}, []).

(** [flushPendingSounds()] *)
Definition flushPendingSounds (a : Audio) : Audio * list Play :=
  match pendingSounds a with
  | [] => (a, [])
  | toPlay =>
      ({| audioUnlocked := audioUnlocked a;
          focusRegion := focusRegion a;
          pendingSounds := [] |},
       concat (map playType toPlay))
  end.

(** the completion callback of [attemptUnlockAudio]:
    [audioUnlocked = true; flushPendingSounds();] *)
Definition unlocked (a : Audio) : Audio * list Play :=
  flushPendingSounds
    {| audioUnlocked := true;
       focusRegion := focusRegion a;
       pendingSounds := pendingSounds a |}.

Definition setRegion (a : Audio) (r : string) : Audio :=
  {| audioUnlocked := audioUnlocked a;
     focusRegion := r;
     pendingSounds := pendingSounds a |}.

(** [handleNavSound(dir, mode)] *)
Definition handleNavSound (a : Audio) (dir : Direction) (mode : Mode)
  : Audio * list Play :=
  if negb (bool_decide (mode = edge)) then (a, [])
  else if bool_decide (dir = down) && bool_decide (focusRegion a = "nav"%string)
  then queueOrPlay (setRegion a "carousel") "carousel"
  else if bool_decide (dir = up)
          && bool_decide (focusRegion a = "carousel"%string)
  then queueOrPlay (setRegion a "nav") "nav"
  else if bool_decide (dir = left) || bool_decide (dir = right) then
    (if bool_decide (focusRegion a = "nav"%string)
     then queueOrPlay a "nav"
     else queueOrPlay a "carouselRow")
  else (a, []).

(** What the listeners registered by [init()] do to the sound state for
    one event: the [nav] listener calls [handleNavSound(e.dir, e.mode)];
    the [select] listener does not touch it. *)
Definition onEvent (a : Audio) (e : Event) : Audio * list Play :=
  match e with
  | nav d mo => handleNavSound a d mo
  | select _ => (a, [])
  end.

(** The listeners on the events of a call of [update], in emission
    order. *)
Fixpoint onEvents (a : Audio) (evs : list Event) : Audio * list Play :=
  match evs with
  | [] => (a, [])
  | e :: evs' =>
      let r := onEvent a e in
      let r' := onEvents (fst r) evs' in
      (fst r', snd r ++ snd r')
  end.

End Main.

(** ** Reading an event list *)

Definition isNav (e : Event) : bool :=
  match e with nav _ _ => true | select _ => false end.

Definition isSelect (e : Event) : bool :=
  match e with select _ => true | nav _ _ => false end.

Definition navs (evs : list Event) : list Event := List.filter isNav evs.
Definition selects (evs : list Event) : list Event := List.filter isSelect evs.

(** The [nav] events emitted on frame [i] of a run. *)
Definition navsAt (tr : list (InputManager.t * list Event)) (i : nat)
  : list Event :=
  match tr !! i with
  | Some r => navs (snd r)
  | None => []
  end.

(** The timestamp of frame [i]. *)
Definition tsAt (fs : list Frame) (i : nat) : Q :=
  match fs !! i with
  | Some f => ts f
  | None => 0
  end.

(** Frame [i] holds direction [d]. *)
Definition holds (ds : list (option Direction)) (i : nat) (d : Direction)
  : Prop :=
  ds !! i = Some (Some d).

(** Frame [i] is the first frame of a maximal run of direction [d]. *)
Definition runStart (ds : list (option Direction)) (i : nat) (d : Direction)
  : Prop :=
  holds ds i d /\ (i = 0%nat \/ exists j, i = S j /\ ~ holds ds j d).

(** Timestamps strictly increase from frame to frame. *)
Definition increasing (fs : list Frame) : Prop :=
  forall i j fi fj,
    (i < j)%nat -> fs !! i = Some fi -> fs !! j = Some fj ->
    (ts fi < ts fj)%Q.

(** Every timestamp of the run is the value of a double, as a JavaScript
    number is. *)
Definition doubleStamps (fs : list Frame) : Prop :=
  Forall (fun f => isDouble (ts f)) fs.

(** [q] is a whole number of milliseconds, small enough that adding or
    subtracting two such numbers is exact in doubles. *)
Definition wholeMs (q : Q) : Prop :=
  exists z : Z, (q == inject_Z z)%Q /\ (- 2 ^ 52 < z < 2 ^ 52)%Z.

(** The delay the timer arms after an event of the given mode. *)
Definition delayAfter (m : InputManager.t) (mo : Mode) : Q :=
  match mo with
  | edge => InputManager._firstDelay m
  | repeat => InputManager._repeatDelay m
  end.

(** The manager that the call on frame [i] finds: the result of the first
    [i] calls. *)
Definition before (m : InputManager.t) (fs : list Frame) (i : nat)
  : InputManager.t :=
  InputManager.final m (take i fs).

Definition isEdge (e : Event) : bool :=
  match e with nav _ edge => true | _ => false end.

(** The number of edge events emitted on the [n] frames from frame [a]
    on. *)
Definition edgesIn (tr : list (InputManager.t * list Event)) (a n : nat)
  : nat :=
  length (List.filter isEdge (concat (map (navsAt tr) (seq a n)))).

(** The first D-pad direction that is down on a button array, in the
    order left, right, up, down (buttons 14, 15, 12, 13). *)
Definition dpadChain (b : list Pad.GamepadButton) : option Direction :=
  if GamepadManager.pressedAt b 14 then Some left
  else if GamepadManager.pressedAt b 15 then Some right
  else if GamepadManager.pressedAt b 12 then Some up
  else if GamepadManager.pressedAt b 13 then Some down
  else None.

(** ** Sample frames *)

(** A frame with no pad attached: only the keyboard's arrow direction. *)
Definition keyFrame (t : Q) (d : option Direction) : Frame :=
  {| ts := t; pads := []; kSelect := false; kArrow := d |}.

(** Direction right held at ts = 0, 100, 225, 300, 312. *)
Definition heldRight : list Frame :=
  [keyFrame 0 (Some right); keyFrame 100 (Some right);
   keyFrame 225 (Some right); keyFrame 300 (Some right);
   keyFrame 312 (Some right)].

(** A connected pad whose buttons are pressed as listed (button [i] is
    entry [i]; 0 is A, 12-15 are the D-pad's up, down, left, right) and
    whose axes read as listed. *)
Definition button (b : bool) : Pad.GamepadButton :=
  {| Pad.pressed := b; Pad.value := if b then 1 else 0 |}.

Definition padWith (btns : list bool) (axes : list Q) : Pad.Gamepad :=
  {| Pad.id := "pad";
     Pad.connected := true;
     Pad.buttons := map button btns;
     Pad.axes := axes |}.

(** Direction right held at ts = 1000.1 and ts = 1220.1, the two numbers
    as doubles. *)
Definition fractionalHold : list Frame :=
  [keyFrame (round64 1000.1) (Some right);
   keyFrame (round64 1220.1) (Some right)].

(** A frame with an idle keyboard and the given [getGamepads()] array. *)
Definition padFrame (t : Q) (ps : list (option Pad.Gamepad)) : Frame :=
  {| ts := t; pads := ps; kSelect := false; kArrow := None |}.

(** D-pad left is button 14. *)
Definition dpadLeftOnly : list bool := replicate 14 false ++ [true; false].

(** D-pad left down while the left stick reads 0.9 toward the right, and
    the same stick with the D-pad released. *)
Definition leftPadRightStick : Frame :=
  padFrame 0 [Some (padWith dpadLeftOnly [0.9; 0; 0; 0]%Q)].

Definition rightStickOnly : Frame :=
  padFrame 0 [Some (padWith [] [0.9; 0; 0; 0]%Q)].

(** A session that starts on the keyboard, sees a pad on its second
    frame and loses it again on the third. *)
Definition plugThenUnplug : list Frame :=
  [keyFrame 0 None; padFrame 16 [Some (padWith [] [])];
   padFrame 32 [None]; keyFrame 48 None].

(** A frame with a connected pad whose A button is in the given state. *)
Definition aFrame (t : Q) (a : bool) : Frame :=
  padFrame t [Some (padWith [a] [])].

(** A down, down, up, down across four frames. *)
Definition pressHoldReleasePress : list Frame :=
  [aFrame 0 true; aFrame 16 true; aFrame 32 false; aFrame 48 true].

(** A manager that has seen a pad with A up, and a frame on which that pad
    is still there with A up while the keyboard reports SELECT just
    pressed. *)
Definition padSeen : InputManager.t :=
  fst (InputManager.update InputManager.new (aFrame 0 false)).

Definition keySelectFrame : Frame :=
  {| ts := 16;
     pads := [Some (padWith [false] [])];
     kSelect := true;
     kArrow := None |}.

(** The condition of the select claim as the specification words it: the
    primary action button of the authoritative device (the pad's A when
    the gamepad is preferred, the keyboard's SELECT otherwise) was just
    pressed on this frame.  Used only to state where [update] departs
    from it. *)
Definition authoritativePress (m : InputManager.t) (f : Frame) : bool :=
  let m1 := InputManager.poll m f in
  if InputManager.preferGamepad m1
  then GamepadManager.justPressed (InputManager.gamepad m1) "A"
  else kSelect f.

(** ** Vocabulary for the further properties *)

(** A sequence of [on(type, callback)] calls, and the callbacks among
    them registered for one type, in call order. *)
Definition onAll {H : Type} (ls : gmap string (list H))
           (regs : list (string * H)) : gmap string (list H) :=
  foldl (fun ls r => InputManager.on ls (fst r) (snd r)) ls regs.

Definition registeredFor {H : Type} (type : string)
           (regs : list (string * H)) : list H :=
  map snd (List.filter (fun r => bool_decide (fst r = type)) regs).

(** The directions of the [nav] events in an event list. *)
Definition navDirs (evs : list Event) : list Direction :=
  omap (fun e => match e with nav d _ => Some d | select _ => None end) evs.

(** The two timers run side by side on the same timestamps and
    directions: per frame, the directions of the events emitted. *)
Fixpoint timerTrace (m : InputManager.t) (ins : list (Q * option Direction))
  : list (list Direction) :=
  match ins with
  | [] => []
  | i :: ins' =>
      let r := InputManager.navStep m (fst i) (snd i) in
      navDirs (snd r) :: timerTrace (fst r) ins'
  end.

Fixpoint timingTrace (tm : InputManager.Timing) (source : Source)
         (ins : list (Q * option Direction)) : list (list Direction) :=
  match ins with
  | [] => []
  | i :: ins' =>
      let r := InputManager.navTiming tm (fst i) (snd i) source in
      map InputManager.sn_dir (snd r) :: timingTrace (fst r) source ins'
  end.

(** The two timers are in step: same active direction, same delays, the
    delays and the last event time whole milliseconds, and while a
    direction is active the deadline of one is the last event time of the
    other plus the delay it will require. *)
Definition inStep (tm : InputManager.Timing) (m : InputManager.t) : Prop :=
  InputManager.currentDirection tm = InputManager._activeDir m /\
  (InputManager.initialDelay tm == InputManager._firstDelay m)%Q /\
  (InputManager.repeatRate tm == InputManager._repeatDelay m)%Q /\
  wholeMs (InputManager.initialDelay tm) /\
  wholeMs (InputManager.repeatRate tm) /\
  wholeMs (InputManager.lastInputTime tm) /\
  (is_Some (InputManager._activeDir m) ->
   (InputManager._nextRepeatAt m ==
    InputManager.lastInputTime tm +
    (if InputManager.isFirstInput tm then InputManager.initialDelay tm
     else InputManager.repeatRate tm))%Q).

(** A locked and an unlocked sound state handled the same events: the
    locked one played nothing and queued some sound types [q] behind what
    it had pending; the unlocked one played those types and queued
    nothing; both end in the same focus region. *)
Definition queuedWhatPlayed (a b : Main.Audio)
           (ra rb : Main.Audio * list Main.Play) : Prop :=
  snd ra = [] /\
  Main.audioUnlocked (fst ra) = false /\
  Main.audioUnlocked (fst rb) = true /\
  Main.focusRegion (fst ra) = Main.focusRegion (fst rb) /\
  Main.pendingSounds (fst rb) = Main.pendingSounds b /\
  exists q,
    Main.pendingSounds (fst ra) = Main.pendingSounds a ++ q /\
    snd rb = concat (map Main.playType q).

(** The focus region is one of the two the code names. *)
Definition knownRegion (a : Main.Audio) : Prop :=
  Main.focusRegion a = "nav"%string \/ Main.focusRegion a = "carousel"%string.

(** * Properties *)

Import InputManager.

(** ** One call of [update] *)

Lemma Qleb_le (a b : Q) : Qleb a b = true <-> (a <= b)%Q.
Proof. apply Qle_bool_iff. Qed.

Lemma Qltb_lt (a b : Q) : Qltb a b = true <-> (a < b)%Q.
Proof.
  unfold Qltb. rewrite negb_true_iff.
  destruct (Qle_bool b a) eqn:E.
  - apply Qle_bool_iff in E. split; [discriminate | intros H; lra].
  - split; [intros _ | reflexivity].
    destruct (Qlt_le_dec a b) as [H | H]; [exact H |].
    apply Qle_bool_iff in H. congruence.
Qed.

Lemma Qltb_ge (a b : Q) : Qltb a b = false <-> (b <= a)%Q.
Proof.
  destruct (Qltb a b) eqn:E.
  - apply Qltb_lt in E. split; [discriminate | intros H; lra].
  - split; [intros _ | reflexivity].
    destruct (Qlt_le_dec a b) as [H | H]; [| exact H].
    apply Qltb_lt in H. congruence.
Qed.

(** ** Rounding to the nearest double *)

Local Open Scope Q_scope.

Lemma pow2_pos (k : Z) : 0 < 2 ^ k.
Proof. apply Qpower_0_lt. reflexivity. Qed.

Lemma pow2_le (a b : Z) : (a <= b)%Z -> 2 ^ a <= 2 ^ b.
Proof. intros H. apply Qpower_le_compat_l; [exact H | discriminate]. Qed.

Lemma pow2_lt_inv (a b : Z) : 2 ^ a < 2 ^ b -> (a < b)%Z.
Proof. intros H. apply (Qpower_lt_compat_l_inv 2); [exact H | reflexivity]. Qed.

Lemma pow2_plus (a b : Z) : 2 ^ (a + b) == 2 ^ a * 2 ^ b.
Proof. apply Qpower_plus. discriminate. Qed.

Lemma pow2_Z (k : Z) : (0 <= k)%Z -> 2 ^ k == inject_Z (2 ^ k).
Proof. intros H. symmetry. apply (Zpower_Qpower 2 k H). Qed.

Lemma pow2_succ (a : Z) : 2 ^ (a + 1) == 2 * 2 ^ a.
Proof. rewrite pow2_plus. change (2 ^ 1) with 2. ring. Qed.

Lemma Q_as_fraction (q : Q) :
  q * inject_Z (Z.pos (Qden q)) == inject_Z (Qnum q).
Proof.
  destruct q as [n d]. unfold Qeq, Qmult, inject_Z. cbn. lia.
Qed.

Lemma Qnum_pos (q : Q) : 0 < q -> (0 < Qnum q)%Z.
Proof. destruct q as [n d]. unfold Qlt. cbn. lia. Qed.

Lemma floorLog2_spec (q : Q) :
  0 < q -> 2 ^ floorLog2 q <= q /\ q < 2 ^ (floorLog2 q + 1).
Proof.
  intros Hq. unfold floorLog2.
  set (n := Qnum q). set (d := Z.pos (Qden q)).
  assert (0 < n)%Z as Hn by (apply Qnum_pos; exact Hq).
  assert (0 < d)%Z as Hd by (subst d; lia).
  destruct (Z.log2_spec n Hn) as [Hn1 Hn2].
  destruct (Z.log2_spec d Hd) as [Hd1 Hd2].
  set (ln := Z.log2 n) in *. set (ld := Z.log2 d) in *.
  assert (0 <= ln)%Z as Hln by apply Z.log2_nonneg.
  assert (0 <= ld)%Z as Hld by apply Z.log2_nonneg.
  pose proof (Q_as_fraction q) as Hfrac. fold n d in Hfrac.
  assert (2 ^ ln <= inject_Z n) as Qn1
    by (rewrite pow2_Z by lia; rewrite <- Zle_Qle; exact Hn1).
  assert (inject_Z n < 2 * 2 ^ ln) as Qn2.
  { rewrite <- pow2_succ, pow2_Z by lia. rewrite <- Zlt_Qlt.
    replace (ln + 1)%Z with (Z.succ ln) by lia. exact Hn2. }
  assert (2 ^ ld <= inject_Z d) as Qd1
    by (rewrite pow2_Z by lia; rewrite <- Zle_Qle; exact Hd1).
  assert (inject_Z d < 2 * 2 ^ ld) as Qd2.
  { rewrite <- pow2_succ, pow2_Z by lia. rewrite <- Zlt_Qlt.
    replace (ld + 1)%Z with (Z.succ ld) by lia. exact Hd2. }
  assert (2 ^ ln == 2 ^ (ln - ld) * 2 ^ ld) as Hsplit
    by (rewrite <- pow2_plus; apply Qpower_comp; [reflexivity | lia]).
  pose proof (pow2_pos ld) as Pld. pose proof (pow2_pos (ln - ld)) as Pe.
  assert (q < 2 * 2 ^ (ln - ld)) as Hup by nra.
  assert (2 ^ (ln - ld) < 2 * q) as Hlow by nra.
  destruct (Qle_bool (2 ^ (ln - ld)) q) eqn:E.
  - apply Qle_bool_iff in E. split; [exact E |]. rewrite pow2_succ. exact Hup.
  - assert (q < 2 ^ (ln - ld)) as Hlt.
    { destruct (Qlt_le_dec q (2 ^ (ln - ld))) as [H | H]; [exact H |].
      apply Qle_bool_iff in H. congruence. }
    assert (2 ^ (ln - ld) == 2 * 2 ^ (ln - ld - 1)) as Hhalf.
    { rewrite <- pow2_succ. apply Qpower_comp; [reflexivity | lia]. }
    split.
    + lra.
    + assert (2 ^ (ln - ld - 1 + 1) == 2 ^ (ln - ld)) as ->
        by (apply Qpower_comp; [reflexivity | lia]).
      exact Hlt.
Qed.

Lemma floorLog2_le (q1 q2 : Q) :
  0 < q1 -> q1 <= q2 -> (floorLog2 q1 <= floorLog2 q2)%Z.
Proof.
  intros H1 H12.
  destruct (floorLog2_spec q1 H1) as [Ha _].
  destruct (floorLog2_spec q2) as [_ Hb]; [lra |].
  assert (floorLog2 q1 < floorLog2 q2 + 1)%Z by (apply pow2_lt_inv; lra).
  lia.
Qed.

Lemma roundHalfEven_bounds (q : Q) :
  (Qfloor q <= roundHalfEven q <= Qfloor q + 1)%Z.
Proof.
  unfold roundHalfEven.
  destruct (Qcompare _ _); [destruct (Z.even _) | |]; lia.
Qed.

Lemma roundHalfEven_Z (z : Z) : roundHalfEven (inject_Z z) = z.
Proof.
  unfold roundHalfEven. rewrite Qfloor_Z.
  assert (inject_Z z - inject_Z z < 1 # 2) as H by lra.
  rewrite Qlt_alt in H. rewrite H. reflexivity.
Qed.

Lemma roundHalfEven_le (x y : Q) :
  x <= y -> (roundHalfEven x <= roundHalfEven y)%Z.
Proof.
  intros Hxy.
  pose proof (Qfloor_resp_le x y Hxy) as Hk.
  destruct (Z.eq_dec (Qfloor x) (Qfloor y)) as [Heq | Hne].
  - unfold roundHalfEven. rewrite Heq.
    destruct (Qcompare (x - inject_Z (Qfloor y)) (1 # 2)) eqn:Ex;
      destruct (Qcompare (y - inject_Z (Qfloor y)) (1 # 2)) eqn:Ey;
      try (destruct (Z.even (Qfloor y))); try lia;
      first [apply Qeq_alt in Ex | apply Qlt_alt in Ex | apply Qgt_alt in Ex];
      first [apply Qeq_alt in Ey | apply Qlt_alt in Ey | apply Qgt_alt in Ey];
      exfalso; lra.
  - pose proof (roundHalfEven_bounds x). pose proof (roundHalfEven_bounds y).
    lia.
Qed.

Lemma roundHalfEven_comp (x y : Q) :
  x == y -> roundHalfEven x = roundHalfEven y.
Proof.
  intros H.
  assert (x <= y) as H1 by lra. assert (y <= x) as H2 by lra.
  apply roundHalfEven_le in H1, H2. lia.
Qed.

Lemma ulpExp_le (q1 q2 : Q) :
  0 < q1 -> q1 <= q2 -> (ulpExp q1 <= ulpExp q2)%Z.
Proof.
  intros H1 H12. unfold ulpExp.
  pose proof (floorLog2_le q1 q2 H1 H12). lia.
Qed.

Lemma roundPos_le (q1 q2 : Q) :
  0 < q1 -> q1 <= q2 -> roundPos q1 <= roundPos q2.
Proof.
  intros H1 H12. assert (0 < q2) as H2 by lra.
  pose proof (ulpExp_le q1 q2 H1 H12) as Hu.
  unfold roundPos.
  pose proof (pow2_pos (ulpExp q1)) as P1.
  pose proof (pow2_pos (ulpExp q2)) as P2.
  destruct (Z.eq_dec (ulpExp q1) (ulpExp q2)) as [Heq | Hne].
  - rewrite Heq in *.
    assert (q1 / 2 ^ ulpExp q2 <= q2 / 2 ^ ulpExp q2) as Hdiv.
    { apply Qmult_le_compat_r; [exact H12 |].
      apply Qlt_le_weak, Qinv_lt_0_compat, P2. }
    apply roundHalfEven_le in Hdiv. rewrite Zle_Qle in Hdiv.
    apply Qmult_le_compat_r; [exact Hdiv | lra].
  - assert (ulpExp q1 < ulpExp q2)%Z as Hlt by lia.
    set (e1 := floorLog2 q1) in *. set (e2 := floorLog2 q2) in *.
    assert (ulpExp q2 = e2 - 52)%Z as Hu2 by (unfold ulpExp in *; lia).
    assert (e1 - 52 <= ulpExp q1)%Z as Hu1 by (unfold ulpExp; lia).
    destruct (floorLog2_spec q1 H1) as [_ Hq1].
    destruct (floorLog2_spec q2 H2) as [Hq2 _].
    fold e1 in Hq1. fold e2 in Hq2.
    apply Qle_trans with (2 ^ e2).
    + (* the smaller one stays at or below 2^e2 *)
      set (u1 := ulpExp q1) in *.
      assert (2 ^ e2 == inject_Z (2 ^ (e2 - u1)) * 2 ^ u1) as Hsplit.
      { rewrite <- pow2_Z by lia. rewrite <- pow2_plus.
        apply Qpower_comp; [reflexivity | lia]. }
      assert (q1 <= 2 ^ e2) as Hb.
      { apply Qle_trans with (2 ^ (e1 + 1)); [lra | apply pow2_le; lia]. }
      assert (q1 / 2 ^ u1 <= inject_Z (2 ^ (e2 - u1))) as Hdiv.
      { apply Qle_shift_div_r; [exact P1 |]. rewrite <- Hsplit. exact Hb. }
      apply roundHalfEven_le in Hdiv. rewrite roundHalfEven_Z in Hdiv.
      rewrite Zle_Qle in Hdiv. rewrite Hsplit.
      apply Qmult_le_compat_r; [exact Hdiv | lra].
    + (* the larger one stays at or above 2^e2 *)
      rewrite Hu2 in *.
      assert (2 ^ e2 == inject_Z (2 ^ 52) * 2 ^ (e2 - 52)) as Hsplit.
      { rewrite <- pow2_Z by lia. rewrite <- pow2_plus.
        apply Qpower_comp; [reflexivity | lia]. }
      assert (inject_Z (2 ^ 52) <= q2 / 2 ^ (e2 - 52)) as Hdiv.
      { apply Qle_shift_div_l; [exact P2 |]. rewrite <- Hsplit. exact Hq2. }
      apply roundHalfEven_le in Hdiv. rewrite roundHalfEven_Z in Hdiv.
      rewrite Zle_Qle in Hdiv. rewrite Hsplit.
      apply Qmult_le_compat_r; [exact Hdiv | lra].
Qed.

Lemma roundPos_nonneg (q : Q) : 0 < q -> 0 <= roundPos q.
Proof.
  intros Hq. unfold roundPos.
  pose proof (pow2_pos (ulpExp q)) as P.
  assert (0 <= q / 2 ^ ulpExp q) as Hdiv.
  { apply Qle_shift_div_l; [exact P | lra]. }
  apply (roundHalfEven_le 0) in Hdiv.
  change 0 with (inject_Z 0) in Hdiv at 1. rewrite roundHalfEven_Z in Hdiv.
  rewrite Zle_Qle in Hdiv. change (inject_Z 0) with 0 in Hdiv.
  apply Qmult_le_0_compat; lra.
Qed.

Lemma Qnum_sign (q : Q) :
  match Qnum q with
  | Z0 => q == 0
  | Zpos _ => 0 < q
  | Zneg _ => q < 0
  end.
Proof.
  destruct q as [[| p | p] d]; cbn; unfold Qeq, Qlt; cbn; lia.
Qed.

Lemma Qnum_opp_neg (q : Q) (p : positive) :
  Qnum q = Zneg p -> 0 < - q.
Proof. intros H. pose proof (Qnum_sign q) as S. rewrite H in S. lra. Qed.

Lemma round64_le (q1 q2 : Q) : q1 <= q2 -> round64 q1 <= round64 q2.
Proof.
  intros H12. unfold round64.
  pose proof (Qnum_sign q1) as S1. pose proof (Qnum_sign q2) as S2.
  destruct (Qnum q1) eqn:E1; destruct (Qnum q2) eqn:E2;
    rewrite ?Qred_correct; try lra.
  - apply roundPos_nonneg. exact S2.
  - apply roundPos_le; [exact S1 | exact H12].
  - pose proof (roundPos_nonneg (- q1)). lra.
  - pose proof (roundPos_nonneg (- q1)). pose proof (roundPos_nonneg q2). lra.
  - assert (roundPos (- q2) <= roundPos (- q1)) by (apply roundPos_le; lra).
    lra.
Qed.

Lemma round64_comp (q1 q2 : Q) : q1 == q2 -> round64 q1 == round64 q2.
Proof.
  intros H. apply Qle_antisym; apply round64_le; lra.
Qed.

Lemma roundPos_Z (z : Z) :
  (0 < z < 2 ^ 53)%Z -> roundPos (inject_Z z) == inject_Z z.
Proof.
  intros [Hz0 Hz1].
  assert (0 < inject_Z z) as Hq by (change 0 with (inject_Z 0); rewrite <- Zlt_Qlt; lia).
  destruct (floorLog2_spec _ Hq) as [Ha Hb].
  set (e := floorLog2 (inject_Z z)) in *.
  assert (e < 53)%Z as He.
  { apply pow2_lt_inv. apply Qle_lt_trans with (inject_Z z); [exact Ha |].
    rewrite (pow2_Z 53) by lia. rewrite <- Zlt_Qlt. exact Hz1. }
  unfold roundPos. fold e. unfold ulpExp. fold e.
  set (u := Z.max (e - 52) (-1074)).
  assert (u <= 0)%Z as Hu by lia.
  pose proof (pow2_pos u) as P.
  assert (2 ^ u * inject_Z (2 ^ (- u)) == 1) as Hinv.
  { rewrite <- pow2_Z by lia. rewrite <- pow2_plus.
    assert (2 ^ (u + - u) == 2 ^ 0) as -> by (apply Qpower_comp; [reflexivity | lia]).
    reflexivity. }
  assert (inject_Z z / 2 ^ u == inject_Z (z * 2 ^ (- u))) as Hdiv.
  { rewrite inject_Z_mult. apply (Qmult_inj_r _ _ (2 ^ u)); [lra |].
    transitivity (inject_Z z); [field; lra |].
    transitivity (inject_Z z * (2 ^ u * inject_Z (2 ^ (- u)))); [| ring].
    rewrite Hinv. ring. }
  rewrite (roundHalfEven_comp _ _ Hdiv), roundHalfEven_Z, inject_Z_mult.
  rewrite <- Qmult_assoc, (Qmult_comm (inject_Z (2 ^ (- u)))), Hinv. ring.
Qed.

Lemma round64_Z (z : Z) :
  (- 2 ^ 53 < z < 2 ^ 53)%Z -> round64 (inject_Z z) == inject_Z z.
Proof.
  intros Hz. unfold round64. destruct z as [| p | p]; cbn [Qnum inject_Z].
  - reflexivity.
  - rewrite Qred_correct. apply (roundPos_Z (Z.pos p)). lia.
  - rewrite Qred_correct.
    change (- (Z.neg p # 1)) with (inject_Z (Z.pos p)).
    rewrite (roundPos_Z (Z.pos p)) by lia. reflexivity.
Qed.

(** Three sums as JavaScript computes them: 0.1 + 0.2 is the double
    written 0.30000000000000004 and not the one written 0.3; 2^53 + 1 is
    2^53; 1000.1 + 220 is the double written 1220.1. *)
Lemma dadd_examples :
  dadd (round64 0.1) (round64 0.2) = round64 0.30000000000000004 /\
  dadd (round64 0.1) (round64 0.2) <> round64 0.3 /\
  dadd 9007199254740992 1 = 9007199254740992 /\
  dadd (round64 1000.1) 220 = round64 1220.1.
Proof.
  split; [vm_compute; reflexivity |].
  split; [vm_compute; discriminate |].
  split; vm_compute; reflexivity.
Qed.

(** Adding a non-negative number to a double does not go below it. *)
Lemma dadd_ge_l (a b : Q) : isDouble a -> 0 <= b -> a <= dadd a b.
Proof.
  intros Ha Hb. unfold isDouble in Ha. rewrite <- Ha at 1.
  apply round64_le. lra.
Qed.

(** A double at or above an exact sum is at or above the rounded sum. *)
Lemma dadd_le_double (a b c : Q) : isDouble c -> a + b <= c -> dadd a b <= c.
Proof.
  intros Hc H. unfold isDouble in Hc. rewrite <- Hc.
  apply round64_le. exact H.
Qed.

(** Whole numbers below 2^53 in magnitude are doubles, so sums and
    differences of whole millisecond counts are exact. *)
Lemma round64_whole (q : Q) (z : Z) :
  q == inject_Z z -> (- 2 ^ 53 < z < 2 ^ 53)%Z -> round64 q == q.
Proof.
  intros Hq Hz. rewrite (round64_comp _ _ Hq), Hq. by apply round64_Z.
Qed.

Lemma dadd_whole (a b : Q) : wholeMs a -> wholeMs b -> dadd a b == a + b.
Proof.
  intros (za & Ha & Hza) (zb & Hb & Hzb). unfold dadd.
  apply (round64_whole _ (za + zb)); [| lia].
  rewrite inject_Z_plus, Ha, Hb. reflexivity.
Qed.

Lemma dsub_whole (a b : Q) : wholeMs a -> wholeMs b -> dsub a b == a - b.
Proof.
  intros (za & Ha & Hza) (zb & Hb & Hzb). unfold dsub.
  apply (round64_whole _ (za - zb)); [| lia].
  unfold Z.sub. rewrite inject_Z_plus, inject_Z_opp, Ha, Hb. reflexivity.
Qed.

Lemma wholeMs_Z (z : Z) : (- 2 ^ 52 < z < 2 ^ 52)%Z -> wholeMs (inject_Z z).
Proof. intros Hz. exists z. split; [reflexivity | exact Hz]. Qed.

Local Close Scope Q_scope.

(** Polling touches the pad and the preference only. *)
Lemma poll_timer (m : t) (f : Frame) :
  _activeDir (poll m f) = _activeDir m /\
  _nextRepeatAt (poll m f) = _nextRepeatAt m /\
  _firstDelay (poll m f) = _firstDelay m /\
  _repeatDelay (poll m f) = _repeatDelay m /\
  _deadzone (poll m f) = _deadzone m.
Proof.
  unfold poll, autoSwitch.
  destruct (GamepadManager.isConnected _); repeat split; reflexivity.
Qed.

Lemma poll_gamepad (m : t) (f : Frame) :
  gamepad (poll m f) = GamepadManager.update (gamepad m) (pads f).
Proof.
  unfold poll, autoSwitch.
  destruct (GamepadManager.isConnected _); reflexivity.
Qed.

Lemma poll_prefer (m : t) (f : Frame) :
  preferGamepad (poll m f) =
  GamepadManager.isConnected (GamepadManager.update (gamepad m) (pads f))
  || preferGamepad m.
Proof.
  unfold poll, autoSwitch. cbn [gamepad set_gamepad].
  destruct (GamepadManager.isConnected _); reflexivity.
Qed.

(** The timer step leaves the pad, the preference and the configuration
    alone. *)
Lemma navStep_frame (m : t) (now : Q) (dir : option Direction) :
  let m' := fst (navStep m now dir) in
  gamepad m' = gamepad m /\ preferGamepad m' = preferGamepad m /\
  _firstDelay m' = _firstDelay m /\ _repeatDelay m' = _repeatDelay m /\
  _deadzone m' = _deadzone m.
Proof.
  unfold navStep. destruct dir as [d |]; cbn; [| done].
  destruct (bool_decide (_activeDir m = Some d)); cbn; [| done].
  destruct (Qleb (_nextRepeatAt m) now); done.
Qed.

(** After the timer step the active direction is the direction fed. *)
Lemma navStep_activeDir (m : t) (now : Q) (dir : option Direction) :
  _activeDir (fst (navStep m now dir)) = dir.
Proof.
  unfold navStep. destruct dir as [d |]; cbn; [| done].
  destruct (bool_decide (_activeDir m = Some d)) eqn:E; cbn; [| done].
  apply bool_decide_eq_true in E.
  destruct (Qleb (_nextRepeatAt m) now); done.
Qed.

Lemma update_fst (m : t) (f : Frame) :
  fst (update m f) = fst (navStep (poll m f) (ts f) (resolved m f)).
Proof.
  unfold update, resolved.
  destruct (navStep (poll m f) (ts f) (resolveDir (poll m f) f)); reflexivity.
Qed.

Lemma update_snd (m : t) (f : Frame) :
  snd (update m f) =
  selectEvents (poll m f) f ++ snd (navStep (poll m f) (ts f) (resolved m f)).
Proof.
  unfold update, resolved.
  destruct (navStep (poll m f) (ts f) (resolveDir (poll m f) f)); reflexivity.
Qed.

Lemma selectEvents_cases (m : t) (f : Frame) :
  selectEvents m f = [] \/ exists s, selectEvents m f = [select s].
Proof.
  unfold selectEvents.
  destruct (_ || _); [right; eexists; reflexivity | left; reflexivity].
Qed.

Lemma navStep_cases (m : t) (now : Q) (dir : option Direction) :
  snd (navStep m now dir) = [] \/
  exists d mo, dir = Some d /\ snd (navStep m now dir) = [nav d mo].
Proof.
  unfold navStep. destruct dir as [d |]; cbn; [| by left].
  destruct (bool_decide (_activeDir m = Some d)); cbn; [| by right; eauto].
  destruct (Qleb (_nextRepeatAt m) now); cbn; [right; eauto | by left].
Qed.

(** The [nav] events of a call are those of its timer step. *)
Lemma update_navs (m : t) (f : Frame) :
  navs (snd (update m f)) = snd (navStep (poll m f) (ts f) (resolved m f)).
Proof.
  rewrite update_snd. unfold navs. rewrite List.filter_app.
  destruct (selectEvents_cases (poll m f) f) as [-> | [s ->]];
    destruct (navStep_cases (poll m f) (ts f) (resolved m f))
      as [-> | (d & mo & _ & ->)]; reflexivity.
Qed.

(** The [select] events of a call are those of lines 91-101. *)
Lemma update_selects (m : t) (f : Frame) :
  selects (snd (update m f)) = selectEvents (poll m f) f.
Proof.
  rewrite update_snd. unfold selects. rewrite List.filter_app.
  destruct (selectEvents_cases (poll m f) f) as [-> | [s ->]];
    destruct (navStep_cases (poll m f) (ts f) (resolved m f))
      as [-> | (d & mo & _ & ->)]; reflexivity.
Qed.

(** What one call does to the timer, by cases on the direction it
    resolves and on the timer it finds. *)
Lemma update_timer (m : t) (f : Frame) :
  let m' := fst (update m f) in
  let out := navs (snd (update m f)) in
  _firstDelay m' = _firstDelay m /\
  _repeatDelay m' = _repeatDelay m /\
  _activeDir m' = resolved m f /\
  match resolved m f with
  | None => _nextRepeatAt m' = 0%Q /\ out = []
  | Some d =>
      if bool_decide (_activeDir m = Some d) then
        if Qleb (_nextRepeatAt m) (ts f)
        then _nextRepeatAt m' = dadd (ts f) (_repeatDelay m) /\
             out = [nav d repeat]
        else _nextRepeatAt m' = _nextRepeatAt m /\ out = []
      else _nextRepeatAt m' = dadd (ts f) (_firstDelay m) /\
           out = [nav d edge]
  end.
Proof.
  cbn zeta. rewrite update_navs, update_fst.
  destruct (poll_timer m f) as (Ha & Hn & Hf & Hr & _).
  destruct (navStep_frame (poll m f) (ts f) (resolved m f))
    as (_ & _ & Hf' & Hr' & _).
  rewrite navStep_activeDir.
  split; [congruence |]. split; [congruence |]. split; [reflexivity |].
  unfold navStep. rewrite Ha, Hn, Hf, Hr.
  destruct (resolved m f) as [d |]; [| done].
  destruct (bool_decide (_activeDir m = Some d)); cbn; [| done].
  destruct (Qleb (_nextRepeatAt m) (ts f)); cbn; [done |].
  split; [exact Hn | reflexivity].
Qed.

(** ** Runs of the frame loop *)

Lemma final_snoc (fs : list Frame) (m : t) (f : Frame) :
  final m (fs ++ [f]) = fst (update (final m fs) f).
Proof.
  revert m. induction fs as [| g fs IH]; intros m; cbn; [reflexivity |].
  apply IH.
Qed.

Lemma before_0 (m : t) (fs : list Frame) : before m fs 0 = m.
Proof. unfold before. by rewrite take_0. Qed.

Lemma before_S (m : t) (fs : list Frame) (i : nat) (f : Frame) :
  fs !! i = Some f ->
  before m fs (S i) = fst (update (before m fs i) f).
Proof.
  intros H. unfold before.
  rewrite (take_S_r _ _ _ H). apply final_snoc.
Qed.

Lemma run_lookup (fs : list Frame) (m : t) (i : nat) :
  run m fs !! i = (fun f => update (before m fs i) f) <$> fs !! i.
Proof.
  revert m i. induction fs as [| g fs IH]; intros m i; [by destruct i |].
  destruct i as [| i]; cbn; [reflexivity |].
  rewrite IH. reflexivity.
Qed.

Lemma dirs_lookup (fs : list Frame) (m : t) (i : nat) :
  dirs m fs !! i = (fun f => resolved (before m fs i) f) <$> fs !! i.
Proof.
  revert m i. induction fs as [| g fs IH]; intros m i; [by destruct i |].
  destruct i as [| i]; cbn; [reflexivity |].
  rewrite IH. reflexivity.
Qed.

Lemma holds_frame (m : t) (fs : list Frame) (i : nat) (d : Direction) :
  holds (dirs m fs) i d ->
  exists f, fs !! i = Some f /\ resolved (before m fs i) f = Some d.
Proof.
  unfold holds. rewrite dirs_lookup.
  destruct (fs !! i) as [f |]; cbn; [| discriminate].
  intros [= H]. eauto.
Qed.

Lemma navsAt_frame (m : t) (fs : list Frame) (i : nat) (f : Frame) :
  fs !! i = Some f ->
  navsAt (run m fs) i = navs (snd (update (before m fs i) f)).
Proof. intros H. unfold navsAt. rewrite run_lookup, H. reflexivity. Qed.

Lemma tsAt_frame (fs : list Frame) (i : nat) (f : Frame) :
  fs !! i = Some f -> tsAt fs i = ts f.
Proof. intros H. unfold tsAt. by rewrite H. Qed.

(** The configured delays never change along a run. *)
Lemma before_delays (m : t) (fs : list Frame) (i : nat) :
  _firstDelay (before m fs i) = _firstDelay m /\
  _repeatDelay (before m fs i) = _repeatDelay m.
Proof.
  induction i as [| i [IHf IHr]]; [by rewrite before_0 |].
  destruct (fs !! i) as [f |] eqn:E.
  - rewrite (before_S _ _ _ _ E).
    destruct (update_timer (before m fs i) f) as (Hf & Hr & _).
    split; congruence.
  - unfold before in *. apply lookup_ge_None in E.
    rewrite take_ge in IHf, IHr by lia. rewrite take_ge by lia. done.
Qed.

(** The call on a frame leaves the frame's direction as the active one. *)
Lemma before_activeDir (m : t) (fs : list Frame) (i : nat) (d : Direction) :
  holds (dirs m fs) i d -> _activeDir (before m fs (S i)) = Some d.
Proof.
  intros H. destruct (holds_frame _ _ _ _ H) as (f & Hf & Hd).
  rewrite (before_S _ _ _ _ Hf).
  destruct (update_timer (before m fs i) f) as (_ & _ & Ha & _).
  congruence.
Qed.

Lemma before_activeDir_not (m : t) (fs : list Frame) (i j : nat)
      (d : Direction) :
  holds (dirs m fs) (S j) d -> ~ holds (dirs m fs) j d ->
  _activeDir (before m fs (S j)) <> Some d.
Proof.
  intros Hi Hj Ha. apply Hj.
  destruct (holds_frame _ _ _ _ Hi) as (f & Hf & _).
  assert (is_Some (fs !! j)) as [g Hg].
  { apply lookup_lt_is_Some. apply lookup_lt_Some in Hf. lia. }
  rewrite (before_S _ _ _ _ Hg) in Ha.
  destruct (update_timer (before m fs j) g) as (_ & _ & Ha' & _).
  unfold holds. rewrite dirs_lookup, Hg. cbn. congruence.
Qed.

(** *** The first frame of a run emits the edge *)
Lemma runStart_edge (m : t) (fs : list Frame) (i : nat) (d : Direction) :
  _activeDir m = None ->
  runStart (dirs m fs) i d ->
  navsAt (run m fs) i = [nav d edge].
Proof.
  intros Hidle [Hi Hprev].
  destruct (holds_frame _ _ _ _ Hi) as (f & Hf & Hd).
  rewrite (navsAt_frame _ _ _ _ Hf).
  destruct (update_timer (before m fs i) f) as (_ & _ & _ & Hcase).
  rewrite Hd in Hcase.
  rewrite bool_decide_eq_false_2 in Hcase; [apply Hcase |].
  destruct Hprev as [-> | (j & -> & Hj)].
  - rewrite before_0, Hidle. discriminate.
  - by apply before_activeDir_not.
Qed.

(** *** A later frame of a run emits nothing or a repeat *)
Lemma held_no_edge (m : t) (fs : list Frame) (j : nat) (d : Direction) :
  holds (dirs m fs) j d -> holds (dirs m fs) (S j) d ->
  navsAt (run m fs) (S j) = [] \/
  (navsAt (run m fs) (S j) = [nav d repeat] /\
   (_nextRepeatAt (before m fs (S j)) <= tsAt fs (S j))%Q).
Proof.
  intros Hj Hi.
  destruct (holds_frame _ _ _ _ Hi) as (f & Hf & Hd).
  rewrite (navsAt_frame _ _ _ _ Hf), (tsAt_frame _ _ _ Hf).
  destruct (update_timer (before m fs (S j)) f) as (_ & _ & _ & Hcase).
  rewrite Hd in Hcase.
  rewrite bool_decide_eq_true_2 in Hcase by by apply before_activeDir.
  destruct (Qleb _ _) eqn:E.
  - right. split; [apply Hcase | by apply Qleb_le].
  - left. apply Hcase.
Qed.

(** *** No event on a neutral frame *)
Lemma neutral_silent (m : t) (fs : list Frame) (i : nat) :
  dirs m fs !! i = Some None -> navsAt (run m fs) i = [].
Proof.
  rewrite dirs_lookup. destruct (fs !! i) as [f |] eqn:Hf; [| discriminate].
  cbn. intros [= Hd]. rewrite (navsAt_frame _ _ _ _ Hf).
  destruct (update_timer (before m fs i) f) as (_ & _ & _ & Hcase).
  rewrite Hd in Hcase. apply Hcase.
Qed.

(** *** Spacing of the events of a run *)

(** An event arms the deadline: the double sum of its timestamp and the
    delay of its mode. *)
Lemma event_arms (m : t) (fs : list Frame) (i : nat) (d : Direction)
      (mo : Mode) :
  navsAt (run m fs) i = [nav d mo] ->
  _nextRepeatAt (before m fs (S i)) = dadd (tsAt fs i) (delayAfter m mo).
Proof.
  unfold navsAt. rewrite run_lookup.
  destruct (fs !! i) as [f |] eqn:Hf; cbn; [| discriminate].
  intros Hout. rewrite (before_S _ _ _ _ Hf), (tsAt_frame _ _ _ Hf).
  destruct (before_delays m fs i) as [Hfd Hrd].
  destruct (update_timer (before m fs i) f) as (_ & _ & _ & Hcase).
  rewrite Hout in Hcase.
  destruct (resolved (before m fs i) f) as [d0 |]; [| by destruct Hcase].
  destruct (bool_decide _).
  - destruct (Qleb _ _); destruct Hcase as [Hn [= ]]; subst.
    cbn. congruence.
  - destruct Hcase as [Hn [= ]]; subst. cbn. congruence.
Qed.

(** While the direction stays held, the deadline never moves back. *)
Lemma deadline_kept (m : t) (fs : list Frame) (i n : nat) (d : Direction)
      (lb : Q) :
  doubleStamps fs ->
  (0 <= _repeatDelay m)%Q ->
  (forall k, (i <= k <= i + n)%nat -> holds (dirs m fs) k d) ->
  (lb <= _nextRepeatAt (before m fs (S i)))%Q ->
  (lb <= _nextRepeatAt (before m fs (S i + n)))%Q.
Proof.
  intros Hdbl Hrd Hrun Hlb. induction n as [| n IH].
  - by rewrite Nat.add_0_r.
  - assert (lb <= _nextRepeatAt (before m fs (S i + n)))%Q as IH'.
    { apply IH. intros k Hk. apply Hrun. lia. }
    clear IH.
    assert (holds (dirs m fs) (i + n) d) as Hprev by (apply Hrun; lia).
    assert (holds (dirs m fs) (S i + n) d) as Hcur by (apply Hrun; lia).
    destruct (holds_frame _ _ _ _ Hcur) as (f & Hf & Hd).
    replace (S i + S n)%nat with (S (S i + n)) by lia.
    rewrite (before_S _ _ _ _ Hf).
    destruct (before_delays m fs (S i + n)) as [_ Hrd'].
    destruct (update_timer (before m fs (S i + n)) f)
      as (_ & _ & _ & Hcase).
    rewrite Hd in Hcase.
    rewrite bool_decide_eq_true_2 in Hcase
      by (apply (before_activeDir m fs (i + n) d Hprev)).
    destruct (Qleb _ _) eqn:E; destruct Hcase as [-> _]; [| exact IH'].
    apply Qleb_le in E. rewrite Hrd'.
    assert (isDouble (ts f)) as Hf64
      by (unfold doubleStamps in Hdbl; rewrite Forall_lookup in Hdbl;
          exact (Hdbl _ _ Hf)).
    pose proof (dadd_ge_l (ts f) (_repeatDelay m) Hf64 Hrd). lra.
Qed.

(** Two events of one run: the later one, a repeat, comes no sooner than
    the deadline armed by the earlier one. *)
Lemma run_spacing (m : t) (fs : list Frame) (i j : nat) (d : Direction)
      (mo : Mode) :
  doubleStamps fs ->
  (0 <= _repeatDelay m)%Q ->
  (i < j)%nat ->
  (forall k, (i <= k <= j)%nat -> holds (dirs m fs) k d) ->
  navsAt (run m fs) i = [nav d mo] ->
  navsAt (run m fs) j = [nav d repeat] ->
  (dadd (tsAt fs i) (delayAfter m mo) <= tsAt fs j)%Q.
Proof.
  intros Hdbl Hrd Hij Hrun Hi Hj.
  destruct j as [| j]; [lia |].
  assert (dadd (tsAt fs i) (delayAfter m mo)
          <= _nextRepeatAt (before m fs (S j)))%Q as Hlb.
  { replace (S j) with (S i + (j - i))%nat by lia.
    apply (deadline_kept m fs i (j - i) d); [exact Hdbl | exact Hrd | |].
    - intros k Hk. apply Hrun. lia.
    - rewrite (event_arms _ _ _ _ _ Hi). lra. }
  destruct (held_no_edge m fs j d) as [Hnone | [_ Hle]].
  - apply Hrun. lia.
  - apply Hrun. lia.
  - rewrite Hnone in Hj. discriminate.
  - lra.
Qed.

(** *** One edge per run *)
Lemma run_one_edge (m : t) (fs : list Frame) (a n : nat) (d : Direction) :
  _activeDir m = None ->
  runStart (dirs m fs) a d ->
  (forall k, (a <= k <= a + n)%nat -> holds (dirs m fs) k d) ->
  edgesIn (run m fs) a (S n) = 1%nat.
Proof.
  intros Hidle Hstart Hrun. unfold edgesIn. induction n as [| n IH].
  - cbn. rewrite (runStart_edge m fs a d Hidle Hstart). reflexivity.
  - rewrite seq_S, map_app, concat_app, List.filter_app, length_app.
    rewrite IH by (intros k Hk; apply Hrun; lia).
    cbn [map concat]. rewrite app_nil_r.
    replace (a + S n)%nat with (S (a + n)) by lia.
    destruct (held_no_edge m fs (a + n) d) as [-> | [-> _]];
      [apply Hrun; lia | apply Hrun; lia | reflexivity | reflexivity].
Qed.

(** ** The edge/repeat timer *)

(** C1, where the claim fails.  Direction right is held at ts = 1000.1 and
    then at ts = 1220.1, both doubles.  The edge at 1000.1 arms the deadline
    1000.1 + 220, which in double arithmetic is 1220.1; the second frame
    reaches it and emits a repeat.  The two doubles are less than 220
    apart. *)
Lemma repeat_comes_sooner_than_firstDelay :
  increasing fractionalHold /\
  doubleStamps fractionalHold /\
  snd <$> run new fractionalHold = [[nav right edge]; [nav right repeat]] /\
  (tsAt fractionalHold 1 - tsAt fractionalHold 0 < 220)%Q /\
  ~ (tsAt fractionalHold 0 + 220 <= tsAt fractionalHold 1)%Q.
Proof.
  split.
  { intros i j fi fj Hij Hi Hj.
    assert (j < 2)%nat as Hj2 by (apply lookup_lt_Some in Hj; exact Hj).
    destruct i as [| [| i]]; try lia; destruct j as [| [| j]]; try lia.
    cbn in Hi, Hj. simplify_eq. vm_compute. reflexivity. }
  split; [repeat constructor; vm_compute; reflexivity |].
  split; [vm_compute; reflexivity |].
  split; [vm_compute; reflexivity |].
  vm_compute. intros H. apply H. reflexivity.
Qed.

(** C1, amended.  Start the frame loop on a manager whose timer is idle
    and whose delays are the defaults (220 ms and 85 ms), and feed it
    frames with increasing timestamps, each a double; read the timer's
    direction signal off [dirs].  Then (a) the first frame of every maximal
    run of a direction [d] emits [nav d edge]; (b) every other frame of the
    run emits nothing or [nav d repeat]; (c) a neutral frame emits nothing;
    (d) a repeat of the run comes no sooner than the deadline armed at the
    run's edge, the double sum of the edge's timestamp and 220, and hence
    at least 220 ms after the edge when that timestamp is a whole number of
    milliseconds; (e) likewise a repeat comes no sooner than the double sum
    of an earlier repeat's timestamp and 85, at least 85 ms after it when
    that timestamp is whole; (f) the frames of a run, counted from its
    first one, emit exactly one edge event.
    On the frames of [heldRight] the calls emit: edge at 0, nothing at 100,
    repeat at 225 (deadline then 310), nothing at 300, repeat at 312. *)
Theorem timer_edge_then_spaced_repeats :
  (forall (m : t) (fs : list Frame),
     _activeDir m = None ->
     _firstDelay m = 220%Q ->
     _repeatDelay m = 85%Q ->
     increasing fs ->
     doubleStamps fs ->
     let ds := dirs m fs in
     let tr := run m fs in
     (forall i d, runStart ds i d -> navsAt tr i = [nav d edge]) /\
     (forall i d, holds ds i d -> holds ds (S i) d ->
        navsAt tr (S i) = [] \/ navsAt tr (S i) = [nav d repeat]) /\
     (forall i, ds !! i = Some None -> navsAt tr i = []) /\
     (forall i j d,
        (i < j)%nat -> (forall k, (i <= k <= j)%nat -> holds ds k d) ->
        navsAt tr i = [nav d edge] -> navsAt tr j = [nav d repeat] ->
        (dadd (tsAt fs i) 220 <= tsAt fs j)%Q /\
        (wholeMs (tsAt fs i) -> (tsAt fs i + 220 <= tsAt fs j)%Q)) /\
     (forall i j d,
        (i < j)%nat -> (forall k, (i <= k <= j)%nat -> holds ds k d) ->
        navsAt tr i = [nav d repeat] -> navsAt tr j = [nav d repeat] ->
        (dadd (tsAt fs i) 85 <= tsAt fs j)%Q /\
        (wholeMs (tsAt fs i) -> (tsAt fs i + 85 <= tsAt fs j)%Q)) /\
     (forall a n d,
        runStart ds a d -> (forall k, (a <= k <= a + n)%nat -> holds ds k d) ->
        edgesIn tr a (S n) = 1%nat))
  /\
  (snd <$> run new heldRight =
     [[nav right edge]; []; [nav right repeat]; []; [nav right repeat]] /\
   _nextRepeatAt (before new heldRight 3) = 310%Q).
Proof.
  split; [| split; vm_compute; reflexivity].
  intros m fs Hidle Hfd Hrd _ Hdbl ds tr. subst ds tr.
  assert (0 <= _repeatDelay m)%Q as Hpos by (rewrite Hrd; lra).
  split; [| split; [| split; [| split; [| split]]]].
  - intros i d. by apply runStart_edge.
  - intros i d Hi HSi.
    destruct (held_no_edge m fs i d Hi HSi) as [H | [H _]]; auto.
  - apply neutral_silent.
  - intros i j d Hij Hrun Hi Hj.
    pose proof (run_spacing m fs i j d edge Hdbl Hpos Hij Hrun Hi Hj) as H.
    cbn [delayAfter] in H. rewrite Hfd in H.
    split; [exact H |]. intros Hw.
    rewrite <- (dadd_whole (tsAt fs i) 220 Hw (wholeMs_Z 220 ltac:(lia))).
    exact H.
  - intros i j d Hij Hrun Hi Hj.
    pose proof (run_spacing m fs i j d repeat Hdbl Hpos Hij Hrun Hi Hj) as H.
    cbn [delayAfter] in H. rewrite Hrd in H.
    split; [exact H |]. intros Hw.
    rewrite <- (dadd_whole (tsAt fs i) 85 Hw (wholeMs_Z 85 ltac:(lia))).
    exact H.
  - intros a n d. by apply run_one_edge.
Qed.

Lemma heldRight_increasing : increasing heldRight.
Proof.
  intros i j fi fj Hij Hi Hj.
  assert (j < 5)%nat as Hj5 by (apply lookup_lt_Some in Hj; exact Hj).
  destruct i as [| [| [| [| [| i]]]]]; try lia;
    destruct j as [| [| [| [| [| j]]]]]; try lia;
    cbn in Hi, Hj; simplify_eq; reflexivity.
Qed.

Lemma heldRight_holds (k : nat) :
  (k <= 4)%nat -> holds (dirs new heldRight) k right.
Proof.
  intros Hk. do 5 (destruct k as [| k]; [vm_compute; reflexivity |]). lia.
Qed.

Lemma heldRight_doubles : doubleStamps heldRight.
Proof. repeat constructor; vm_compute; reflexivity. Qed.

Lemma timer_edge_then_spaced_repeats_witness :
  _activeDir new = None /\ increasing heldRight /\ doubleStamps heldRight /\
  navsAt (run new heldRight) 0 = [nav right edge] /\
  (dadd (tsAt heldRight 0) 220 <= tsAt heldRight 2)%Q /\
  (tsAt heldRight 0 + 220 <= tsAt heldRight 2)%Q /\
  (tsAt heldRight 2 + 85 <= tsAt heldRight 4)%Q.
Proof.
  destruct timer_edge_then_spaced_repeats as [H _].
  destruct (H new heldRight eq_refl eq_refl eq_refl heldRight_increasing
              heldRight_doubles)
    as (Ha & _ & _ & Hd & He & _).
  split; [reflexivity |]. split; [exact heldRight_increasing |].
  split; [exact heldRight_doubles |].
  assert (forall k, (0 <= k <= 2)%nat -> holds (dirs new heldRight) k right)
    as Hrun02 by (intros k Hk; apply heldRight_holds; lia).
  assert (forall k, (2 <= k <= 4)%nat -> holds (dirs new heldRight) k right)
    as Hrun24 by (intros k Hk; apply heldRight_holds; lia).
  assert (navsAt (run new heldRight) 0 = [nav right edge]) as E0
    by (vm_compute; reflexivity).
  assert (navsAt (run new heldRight) 2 = [nav right repeat]) as E2
    by (vm_compute; reflexivity).
  assert (navsAt (run new heldRight) 4 = [nav right repeat]) as E4
    by (vm_compute; reflexivity).
  destruct (Hd 0%nat 2%nat right ltac:(lia) Hrun02 E0 E2) as [Hd1 Hd2].
  destruct (He 2%nat 4%nat right ltac:(lia) Hrun24 E2 E4) as [_ He2].
  split; [| split; [| split]].
  - apply Ha. split; [vm_compute; reflexivity | by left].
  - exact Hd1.
  - apply Hd2. exists 0%Z. split; [reflexivity | lia].
  - apply He2. exists 225%Z. split; [reflexivity | lia].
Defined.

(** Neutral frames keep an idle timer idle. *)
Lemma neutral_frames_idle (fs : list Frame) (m : t) :
  _activeDir m = None ->
  Forall (fun o => o = None) (dirs m fs) ->
  _activeDir (final m fs) = None.
Proof.
  revert m. induction fs as [| f fs IH]; intros m Hidle Hall; [exact Hidle |].
  cbn in *. inversion Hall as [| o os Ho Hos]; subst.
  apply IH; [| exact Hos].
  destruct (update_timer m f) as (_ & _ & Ha & _). congruence.
Qed.

(** C2.  A call of [update] that resolves no direction leaves the timer
    reset (active direction none, deadline 0) and emits no [nav] event.
    After it, and after any number of further neutral frames, the first
    call that resolves a direction [d] emits [nav d edge], whatever the
    direction held before the neutral frame was. *)
Theorem neutral_frame_resets_timer (m : t) (f : Frame) :
  resolved m f = None ->
  let m1 := fst (update m f) in
  _activeDir m1 = None /\
  _nextRepeatAt m1 = 0%Q /\
  navs (snd (update m f)) = [] /\
  forall (fs : list Frame) (f' : Frame) (d : Direction),
    Forall (fun o => o = None) (dirs m1 fs) ->
    resolved (final m1 fs) f' = Some d ->
    navs (snd (update (final m1 fs) f')) = [nav d edge].
Proof.
  intros Hnone m1. subst m1.
  destruct (update_timer m f) as (_ & _ & Ha & Hcase).
  rewrite Hnone in Ha, Hcase. destruct Hcase as [Hn Hout].
  split; [exact Ha |]. split; [exact Hn |]. split; [exact Hout |].
  intros fs f' d Hall Hd.
  pose proof (neutral_frames_idle fs _ Ha Hall) as Hidle.
  destruct (update_timer (final (fst (update m f)) fs) f')
    as (_ & _ & _ & Hcase).
  rewrite Hd in Hcase.
  rewrite bool_decide_eq_false_2 in Hcase by (rewrite Hidle; discriminate).
  apply Hcase.
Qed.

Lemma neutral_frame_resets_timer_witness :
  let m := fst (update new (keyFrame 0 (Some right))) in
  _activeDir m = Some right /\
  resolved m (keyFrame 16 None) = None /\
  navs (snd (update
    (final (fst (update m (keyFrame 16 None)))
           [keyFrame 32 None; keyFrame 48 None])
    (keyFrame 64 (Some right)))) = [nav right edge].
Proof.
  split; [reflexivity |]. split; [reflexivity |].
  apply (neutral_frame_resets_timer
           (fst (update new (keyFrame 0 (Some right)))) (keyFrame 16 None)
           eq_refl).
  - repeat constructor.
  - reflexivity.
Defined.

(** ** The gamepad adapter *)

Lemma update_connected (g : GamepadManager.t)
      (ps : list (option Pad.Gamepad)) (p : Pad.Gamepad) :
  GamepadManager.firstConnected ps = Some p ->
  GamepadManager.update g ps =
  {| GamepadManager.deadzone := GamepadManager.deadzone g;
     GamepadManager.triggerThreshold := GamepadManager.triggerThreshold g;
     GamepadManager.pad := Some p;
     GamepadManager._prevButtons := map Pad.pressed (Pad.buttons p);
     GamepadManager._justPressed :=
       GamepadManager.pressEdges (GamepadManager._prevButtons g)
                                 (map Pad.pressed (Pad.buttons p));
     GamepadManager.axes := Pad.axes p |}.
Proof. intros H. unfold GamepadManager.update. by rewrite H. Qed.

Lemma update_disconnected (g : GamepadManager.t)
      (ps : list (option Pad.Gamepad)) :
  GamepadManager.firstConnected ps = None ->
  GamepadManager.update g ps =
  {| GamepadManager.deadzone := GamepadManager.deadzone g;
     GamepadManager.triggerThreshold := GamepadManager.triggerThreshold g;
     GamepadManager.pad := None;
     GamepadManager._prevButtons := [];
     GamepadManager._justPressed := [];
     GamepadManager.axes := [0; 0; 0; 0]%Q |}.
Proof. intros H. unfold GamepadManager.update. by rewrite H. Qed.

Lemma isConnected_update (g : GamepadManager.t)
      (ps : list (option Pad.Gamepad)) :
  GamepadManager.isConnected (GamepadManager.update g ps) =
  bool_decide (is_Some (GamepadManager.firstConnected ps)).
Proof.
  unfold GamepadManager.isConnected, GamepadManager.update.
  destruct (GamepadManager.firstConnected ps); reflexivity.
Qed.

(** Entry [i] of the press edges: down now and not down in the retained
    snapshot. *)
Lemma pressEdges_lookup (prev btns : list bool) (i : nat) :
  default false (GamepadManager.pressEdges prev btns !! i) =
  default false (btns !! i) && negb (default false (prev !! i)).
Proof.
  unfold GamepadManager.pressEdges. rewrite list_lookup_imap.
  destruct (btns !! i); reflexivity.
Qed.

Lemma pressedAt_map (b : list Pad.GamepadButton) (i : nat) :
  default false (map Pad.pressed b !! i) = GamepadManager.pressedAt b i.
Proof.
  unfold GamepadManager.pressedAt.
  change (map Pad.pressed b) with (Pad.pressed <$> b).
  by rewrite list_lookup_fmap.
Qed.

(** [justPressed] on a connected pad, for a name of its map. *)
Lemma justPressed_connected (g : GamepadManager.t)
      (ps : list (option Pad.Gamepad)) (p : Pad.Gamepad)
      (name : string) (i : nat) :
  GamepadManager.firstConnected ps = Some p ->
  GamepadManager.justPressedMap !! name = Some i ->
  GamepadManager.justPressed (GamepadManager.update g ps) name =
  GamepadManager.pressedAt (Pad.buttons p) i
  && negb (default false (GamepadManager._prevButtons g !! i)).
Proof.
  intros Hp Hn. rewrite (update_connected _ _ _ Hp).
  unfold GamepadManager.justPressed. cbn [GamepadManager.pad]. rewrite Hn.
  cbn [GamepadManager._justPressed].
  by rewrite pressEdges_lookup, pressedAt_map.
Qed.

(** C10.  A poll that finds no connected pad empties the retained
    snapshot.  On the next poll that finds a pad, the press edge of every
    button is its current state, and [justPressed] reports every button of
    its map that is down as just pressed, whatever the snapshot held
    before the pad went away. *)
Theorem reconnect_reports_held_buttons_as_pressed
        (g : GamepadManager.t) (ps0 ps1 : list (option Pad.Gamepad))
        (p : Pad.Gamepad) :
  GamepadManager.firstConnected ps0 = None ->
  GamepadManager.firstConnected ps1 = Some p ->
  let g0 := GamepadManager.update g ps0 in
  let g1 := GamepadManager.update g0 ps1 in
  GamepadManager._prevButtons g0 = [] /\
  (forall i,
     default false (GamepadManager._justPressed g1 !! i) =
     GamepadManager.pressedAt (Pad.buttons p) i) /\
  (forall name i,
     GamepadManager.justPressedMap !! name = Some i ->
     GamepadManager.justPressed g1 name =
     GamepadManager.pressedAt (Pad.buttons p) i).
Proof.
  intros H0 H1 g0 g1. subst g0 g1.
  rewrite (update_disconnected _ _ H0).
  split; [reflexivity |]. split.
  - intros i. rewrite (update_connected _ _ _ H1). cbn.
    rewrite pressEdges_lookup, pressedAt_map. cbn.
    by rewrite andb_true_r.
  - intros name i Hn.
    rewrite (justPressed_connected _ _ _ _ _ H1 Hn). cbn.
    by rewrite andb_true_r.
Qed.

Lemma reconnect_reports_held_buttons_as_pressed_witness :
  let held := GamepadManager.update GamepadManager.new
                [Some (padWith [true] [])] in
  default false (GamepadManager._prevButtons held !! 0%nat) = true /\
  GamepadManager.justPressed
    (GamepadManager.update held [Some (padWith [true] [])]) "A" = false /\
  GamepadManager.justPressed
    (GamepadManager.update (GamepadManager.update held [None])
       [Some (padWith [true] [])]) "A" = true.
Proof.
  split; [reflexivity |]. split; [reflexivity |].
  destruct (reconnect_reports_held_buttons_as_pressed
              (GamepadManager.update GamepadManager.new
                 [Some (padWith [true] [])])
              [None] [Some (padWith [true] [])] (padWith [true] [])
              eq_refl eq_refl) as (_ & _ & H).
  apply (H "A"%string 0%nat). reflexivity.
Defined.

(** ** The device-level deadzone *)

(** [getStick('LEFT')] on a connected pad hands out the axes as polled. *)
Lemma getStick_raw (g : GamepadManager.t) (ps : list (option Pad.Gamepad))
      (p : Pad.Gamepad) :
  GamepadManager.firstConnected ps = Some p ->
  GamepadManager.getStick (GamepadManager.update g ps) "LEFT" =
  {| x := default 0%Q (Pad.axes p !! 0%nat);
     y := default 0%Q (Pad.axes p !! 1%nat) |}.
Proof. intros H. rewrite (update_connected _ _ _ H). reflexivity. Qed.

(** C4, evaluated.  A connected pad whose left stick reads (0.1, 0.05):
    the magnitude is below the adapter's [deadzone] of 0.15, and
    [getStick('LEFT')] returns (0.1, 0.05), not (0, 0). *)
Theorem getStick_below_deadzone_is_not_zeroed :
  let g := GamepadManager.update GamepadManager.new
             [Some (padWith [] [0.1; 0.05; 0; 0]%Q)] in
  GamepadManager.isConnected g = true /\
  GamepadManager.deadzone g = 0.15%Q /\
  (0.1 * 0.1 + 0.05 * 0.05 < 0.15 * 0.15)%Q /\
  GamepadManager.getStick g "LEFT" = {| x := 0.1; y := 0.05 |} /\
  ~ (x (GamepadManager.getStick g "LEFT") == 0)%Q /\
  ~ (y (GamepadManager.getStick g "LEFT") == 0)%Q.
Proof.
  cbn zeta. split; [reflexivity |]. split; [reflexivity |].
  split; [reflexivity |]. split; [reflexivity |].
  split; cbn; intros H; discriminate H.
Qed.

(** ** The direction resolver *)

(** The stick yields no direction exactly when both axes are inside the
    navigation deadzone. *)
Lemma dominant_none_iff (m : t) (ax ay : Q) :
  _getDominantDirFromAxes m ax ay = None <->
  (Qabs ax < _deadzone m)%Q /\ (Qabs ay < _deadzone m)%Q.
Proof.
  unfold _getDominantDirFromAxes. cbn zeta.
  destruct (Qltb (Qabs ax) (_deadzone m)) eqn:Ex;
    destruct (Qltb (Qabs ay) (_deadzone m)) eqn:Ey; cbn [andb].
  - apply Qltb_lt in Ex, Ey. done.
  - apply Qltb_ge in Ey. split; [| intros [_ H]; lra].
    destruct (Qleb _ _); [destruct (Qltb 0 ax) | destruct (Qltb 0 ay)];
      discriminate.
  - apply Qltb_ge in Ex. split; [| intros [H _]; lra].
    destruct (Qleb _ _); [destruct (Qltb 0 ax) | destruct (Qltb 0 ay)];
      discriminate.
  - apply Qltb_ge in Ex. split; [| intros [H _]; lra].
    destruct (Qleb _ _); [destruct (Qltb 0 ax) | destruct (Qltb 0 ay)];
      discriminate.
Qed.

(** A vector shorter than [r] has both coordinates inside [r]. *)
Lemma short_vector_axes (r ax ay : Q) :
  (0 <= r)%Q -> (ax * ax + ay * ay < r * r)%Q ->
  (Qabs ax < r)%Q /\ (Qabs ay < r)%Q.
Proof.
  intros Hr H. split; apply Qabs_case; intros Hs; nra.
Qed.

Lemma dominant_poll (m : t) (f : Frame) (ax ay : Q) :
  _getDominantDirFromAxes (poll m f) ax ay = _getDominantDirFromAxes m ax ay.
Proof.
  unfold _getDominantDirFromAxes.
  destruct (poll_timer m f) as (_ & _ & _ & _ & ->). reflexivity.
Qed.

(** The direction resolved on a frame that finds a connected pad. *)
Lemma resolved_connected (m : t) (f : Frame) (p : Pad.Gamepad) :
  GamepadManager.firstConnected (pads f) = Some p ->
  resolved m f =
  match dpadChain (Pad.buttons p) with
  | Some d => Some d
  | None =>
      match _getDominantDirFromAxes m (default 0%Q (Pad.axes p !! 0%nat))
                                      (default 0%Q (Pad.axes p !! 1%nat)) with
      | Some d => Some d
      | None => kArrow f
      end
  end.
Proof.
  intros Hp. unfold resolved, resolveDir, dpadDir.
  rewrite poll_prefer, isConnected_update, Hp, poll_gamepad.
  rewrite (getStick_raw _ _ _ Hp), dominant_poll.
  rewrite (update_connected _ _ _ Hp).
  cbn. unfold dpadChain.
  destruct (GamepadManager.pressedAt _ 14); [reflexivity |].
  destruct (GamepadManager.pressedAt _ 15); [reflexivity |].
  destruct (GamepadManager.pressedAt _ 12); [reflexivity |].
  destruct (GamepadManager.pressedAt _ 13); [reflexivity |].
  destruct (_getDominantDirFromAxes _ _ _); reflexivity.
Qed.

(** C6.  On a frame that finds a connected pad with at least one D-pad
    direction down, [update] resolves the first of left, right, up, down
    that is down, whatever the pad's axes and the keyboard report, and
    that direction becomes the timer's active direction.  With D-pad left
    down and the stick at 0.9 toward the right the frame resolves to left
    (the stick alone resolves to right). *)
Theorem dpad_direction_wins_over_stick :
  (forall (m : t) (f : Frame) (p : Pad.Gamepad),
     GamepadManager.firstConnected (pads f) = Some p ->
     let b := Pad.buttons p in
     GamepadManager.pressedAt b 14 || GamepadManager.pressedAt b 15
       || GamepadManager.pressedAt b 12 || GamepadManager.pressedAt b 13
       = true ->
     let d := if GamepadManager.pressedAt b 14 then left
              else if GamepadManager.pressedAt b 15 then right
              else if GamepadManager.pressedAt b 12 then up
              else down in
     resolved m f = Some d /\ _activeDir (fst (update m f)) = Some d)
  /\
  (resolved new leftPadRightStick = Some left /\
   snd (update new leftPadRightStick) = [nav left edge] /\
   resolved new rightStickOnly = Some right).
Proof.
  split; [| repeat split; vm_compute; reflexivity].
  intros m f p Hp b Hany d.
  assert (resolved m f = Some d) as Hd.
  { rewrite (resolved_connected _ _ _ Hp). unfold dpadChain.
    subst d b.
    destruct (GamepadManager.pressedAt _ 14); [reflexivity |].
    destruct (GamepadManager.pressedAt _ 15); [reflexivity |].
    destruct (GamepadManager.pressedAt _ 12); [reflexivity |].
    destruct (GamepadManager.pressedAt _ 13); [reflexivity |].
    discriminate Hany. }
  split; [exact Hd |].
  destruct (update_timer m f) as (_ & _ & Ha & _). congruence.
Qed.

Lemma dpad_direction_wins_over_stick_witness :
  GamepadManager.firstConnected (pads leftPadRightStick)
    = Some (padWith dpadLeftOnly [0.9; 0; 0; 0]%Q) /\
  resolved new leftPadRightStick = Some left /\
  _activeDir (fst (update new leftPadRightStick)) = Some left.
Proof.
  split; [reflexivity |].
  destruct dpad_direction_wins_over_stick as [H _].
  apply (H new leftPadRightStick (padWith dpadLeftOnly [0.9; 0; 0; 0]%Q)
           eq_refl eq_refl).
Defined.

(** C7.  With the navigation deadzone at 0.32, a stick vector of
    magnitude below 0.32 passes the test max(|x|,|y|) < 0.32 and
    [_getDominantDirFromAxes] returns no direction.  In [update], on a
    connected pad with no D-pad direction down, such a stick contributes
    nothing: the frame resolves to what the keyboard fallback reports,
    none when the keyboard is idle. *)
Theorem stick_inside_nav_deadzone_resolves_none (m : t) (ax ay : Q) :
  _deadzone m = 0.32%Q ->
  (ax * ax + ay * ay < 0.32 * 0.32)%Q ->
  ((Qabs ax < 0.32)%Q /\ (Qabs ay < 0.32)%Q) /\
  _getDominantDirFromAxes m ax ay = None /\
  (forall (f : Frame) (p : Pad.Gamepad),
     GamepadManager.firstConnected (pads f) = Some p ->
     dpadChain (Pad.buttons p) = None ->
     Pad.axes p !! 0%nat = Some ax ->
     Pad.axes p !! 1%nat = Some ay ->
     resolved m f = kArrow f /\
     (kArrow f = None -> resolved m f = None)).
Proof.
  intros Hdz Hmag.
  assert ((Qabs ax < 0.32)%Q /\ (Qabs ay < 0.32)%Q) as Hin
    by (apply short_vector_axes; [lra | exact Hmag]).
  assert (_getDominantDirFromAxes m ax ay = None) as Hnone
    by (apply dominant_none_iff; rewrite Hdz; exact Hin).
  split; [exact Hin |]. split; [exact Hnone |].
  intros f p Hp Hpad Hx Hy.
  assert (resolved m f = kArrow f) as Hr.
  { rewrite (resolved_connected _ _ _ Hp), Hpad, Hx, Hy.
    cbn [from_option id]. by rewrite Hnone. }
  split; [exact Hr | congruence].
Qed.

Lemma stick_inside_nav_deadzone_resolves_none_witness :
  (0.2 * 0.2 + 0.2 * 0.2 < 0.32 * 0.32)%Q /\
  _getDominantDirFromAxes new 0.2 0.2 = None /\
  resolved new (padFrame 0 [Some (padWith [] [0.2; 0.2]%Q)]) = None.
Proof.
  split; [reflexivity |].
  destruct (stick_inside_nav_deadzone_resolves_none new 0.2 0.2
              eq_refl eq_refl) as (_ & Hf & Hu).
  split; [exact Hf |].
  apply (Hu (padFrame 0 [Some (padWith [] [0.2; 0.2]%Q)])
            (padWith [] [0.2; 0.2]%Q) eq_refl eq_refl eq_refl eq_refl).
  reflexivity.
Defined.

(** C8.  With the navigation deadzone at 0.32, a stick vector with
    |x| = |y| at or above 0.32 resolves on the horizontal axis: right when
    x > 0, left otherwise, never up or down. *)
Theorem stick_tie_resolves_horizontally (m : t) (ax ay : Q) :
  _deadzone m = 0.32%Q ->
  (Qabs ax == Qabs ay)%Q ->
  (0.32 <= Qabs ax)%Q ->
  (0.32 <= Qabs ay)%Q /\
  ((0 < ax)%Q -> _getDominantDirFromAxes m ax ay = Some right) /\
  (~ (0 < ax)%Q -> _getDominantDirFromAxes m ax ay = Some left) /\
  _getDominantDirFromAxes m ax ay <> Some up /\
  _getDominantDirFromAxes m ax ay <> Some down.
Proof.
  intros Hdz Htie Hx.
  split; [lra |].
  unfold _getDominantDirFromAxes. cbn zeta. rewrite Hdz.
  assert (Qltb (Qabs ax) 0.32 = false) as -> by (apply Qltb_ge; exact Hx).
  assert (Qleb (Qabs ay) (Qabs ax) = true) as -> by (apply Qleb_le; lra).
  cbn [andb].
  destruct (Qltb 0 ax) eqn:E.
  - apply Qltb_lt in E. repeat split; try done.
  - apply Qltb_ge in E. repeat split; try done. intros H. lra.
Qed.

Lemma stick_tie_resolves_horizontally_witness :
  _getDominantDirFromAxes new 0.5 (-0.5) = Some right /\
  _getDominantDirFromAxes new (-0.5) 0.5 = Some left.
Proof.
  split.
  - apply (stick_tie_resolves_horizontally new 0.5 (-0.5));
      reflexivity || (cbn; discriminate).
  - apply (stick_tie_resolves_horizontally new (-0.5) 0.5);
      reflexivity || (cbn; discriminate).
Defined.

(** ** The device preference *)

Lemma update_gamepad (m : t) (f : Frame) :
  gamepad (fst (update m f)) = GamepadManager.update (gamepad m) (pads f).
Proof.
  rewrite update_fst.
  destruct (navStep_frame (poll m f) (ts f) (resolved m f)) as (-> & _).
  apply poll_gamepad.
Qed.

Lemma update_prefer (m : t) (f : Frame) :
  preferGamepad (fst (update m f)) =
  GamepadManager.isConnected (gamepad (fst (update m f)))
  || preferGamepad m.
Proof.
  rewrite update_gamepad, update_fst.
  destruct (navStep_frame (poll m f) (ts f) (resolved m f)) as (_ & -> & _).
  apply poll_prefer.
Qed.

Lemma before_past_end (m : t) (fs : list Frame) (i : nat) :
  fs !! i = None -> before m fs (S i) = before m fs i.
Proof.
  intros H. apply lookup_ge_None in H. unfold before.
  by rewrite !take_ge by lia.
Qed.

Lemma run_lookup_fst (m : t) (fs : list Frame) (i : nat)
      (r : t * list Event) :
  run m fs !! i = Some r -> fst r = before m fs (S i).
Proof.
  rewrite run_lookup. destruct (fs !! i) as [f |] eqn:Hf; [| discriminate].
  cbn. intros [= <-]. by rewrite (before_S _ _ _ _ Hf).
Qed.

(** Once set, the preference survives every later call. *)
Lemma prefer_kept (m : t) (fs : list Frame) (i n : nat) :
  preferGamepad (before m fs i) = true ->
  preferGamepad (before m fs (i + n)) = true.
Proof.
  intros H. induction n as [| n IH]; [by rewrite Nat.add_0_r |].
  replace (i + S n)%nat with (S (i + n)) by lia.
  destruct (fs !! (i + n)%nat) as [f |] eqn:Hf.
  - rewrite (before_S _ _ _ _ Hf), update_prefer, IH. apply orb_true_r.
  - by rewrite (before_past_end _ _ _ Hf).
Qed.

(** C5.  A call of [update] that finds the pad connected leaves the
    preference on gamepad; a call that finds the preference on gamepad
    leaves it there, connected or not.  Hence along any run of the frame
    loop, from the first tick on which the adapter reports connected the
    preference is gamepad after every tick. *)
Theorem gamepad_preference_latches :
  (forall (m : t) (f : Frame),
     GamepadManager.isConnected (gamepad (fst (update m f))) = true ->
     preferGamepad (fst (update m f)) = true) /\
  (forall (m : t) (f : Frame),
     preferGamepad m = true -> preferGamepad (fst (update m f)) = true) /\
  (forall (m : t) (fs : list Frame) (i j : nat) (ri rj : t * list Event),
     (i <= j)%nat ->
     run m fs !! i = Some ri ->
     GamepadManager.isConnected (gamepad (fst ri)) = true ->
     run m fs !! j = Some rj ->
     preferGamepad (fst rj) = true).
Proof.
  split; [| split].
  - intros m f H. by rewrite update_prefer, H.
  - intros m f H. rewrite update_prefer, H. apply orb_true_r.
  - intros m fs i j ri rj Hij Hi Hc Hj.
    rewrite (run_lookup_fst _ _ _ _ Hj).
    replace (S j) with (S i + (j - i))%nat by lia.
    apply prefer_kept.
    rewrite <- (run_lookup_fst _ _ _ _ Hi).
    rewrite run_lookup in Hi.
    destruct (fs !! i) as [f |]; [| discriminate].
    cbn in Hi. injection Hi as <-.
    by rewrite update_prefer, Hc.
Qed.

Lemma gamepad_preference_latches_witness :
  preferGamepad new = false /\
  GamepadManager.isConnected (gamepad (before new plugThenUnplug 2)) = true /\
  GamepadManager.isConnected (gamepad (before new plugThenUnplug 4)) = false /\
  preferGamepad (before new plugThenUnplug 4) = true.
Proof.
  split; [reflexivity |]. split; [reflexivity |]. split; [reflexivity |].
  destruct gamepad_preference_latches as (_ & _ & H).
  apply (H new plugThenUnplug 1%nat 3%nat
           (update (before new plugThenUnplug 1)
                   (padFrame 16 [Some (padWith [] [])]))
           (update (before new plugThenUnplug 3) (keyFrame 48 None)));
    [lia | reflexivity | reflexivity | reflexivity].
Defined.

(** ** Events per call *)

(** C9.  One call of [update] emits at most one [nav] event and at most
    one [select] event, and nothing else. *)
Theorem update_emits_at_most_one_of_each (m : t) (f : Frame) :
  (length (navs (snd (update m f))) <= 1)%nat /\
  (length (selects (snd (update m f))) <= 1)%nat /\
  snd (update m f) = selects (snd (update m f)) ++ navs (snd (update m f)).
Proof.
  rewrite update_navs, update_selects, update_snd.
  split; [| split; [| reflexivity]].
  - destruct (navStep_cases (poll m f) (ts f) (resolved m f))
      as [-> | (d & mo & _ & ->)]; cbn; lia.
  - destruct (selectEvents_cases (poll m f) f) as [-> | [s ->]]; cbn; lia.
Qed.

(** ** The select event *)

(** The pad's A button counts as just pressed when a pad is connected, A
    is down on this poll and was not down in the retained snapshot. *)
Lemma justPressed_A_iff (m : t) (f : Frame) :
  GamepadManager.justPressed (gamepad (poll m f)) "A" = true <->
  exists p,
    GamepadManager.firstConnected (pads f) = Some p /\
    GamepadManager.pressedAt (Pad.buttons p) 0 = true /\
    default false (GamepadManager._prevButtons (gamepad m) !! 0%nat) = false.
Proof.
  rewrite poll_gamepad.
  destruct (GamepadManager.firstConnected (pads f)) as [p |] eqn:Hp.
  - rewrite (justPressed_connected _ _ _ "A" 0 Hp eq_refl).
    rewrite andb_true_iff, negb_true_iff. split.
    + intros [Ha Hprev]. exists p. done.
    + intros (q & [= <-] & Ha & Hprev). done.
  - rewrite (update_disconnected _ _ Hp). cbn. split; [discriminate |].
    intros (q & [=] & _).
Qed.

(** C3, where the claim fails.  The gamepad is the preferred device and
    its A button is up and makes no transition; the keyboard reports SELECT
    just pressed.  [update] emits a select event, and names the gamepad as
    its source. *)
Lemma select_fires_for_keyboard_while_gamepad_preferred :
  preferGamepad (poll padSeen keySelectFrame) = true /\
  GamepadManager.justPressed (gamepad (poll padSeen keySelectFrame)) "A"
    = false /\
  kSelect keySelectFrame = true /\
  snd (update padSeen keySelectFrame) = [select src_gamepad] /\
  ~ (selects (snd (update padSeen keySelectFrame)) <> [] <->
     authoritativePress padSeen keySelectFrame = true).
Proof.
  split; [reflexivity |]. split; [reflexivity |]. split; [reflexivity |].
  split; [reflexivity |].
  intros [H _].
  assert (authoritativePress padSeen keySelectFrame = true) as Hp
    by (apply H; discriminate).
  vm_compute in Hp. discriminate Hp.
Qed.

(** C3, amended.  A call of [update] emits at most one select event; it
    emits one exactly when the pad's A button was just pressed while the
    gamepad is the preferred device, or the keyboard reports SELECT just
    pressed.  A just pressed means: a pad is connected, A is down on this
    poll and was not down in the snapshot of the previous poll.  The
    source is the keyboard whenever the gamepad is not preferred, and the
    gamepad whenever the pad's A button produced the press.  With A down,
    down, up, down across four frames, select fires on the first and the
    fourth frame only. *)
Theorem select_is_edge_triggered :
  (forall (m : t) (f : Frame),
     let m1 := poll m f in
     let evs := selects (snd (update m f)) in
     let aPressed :=
       preferGamepad m1 && GamepadManager.justPressed (gamepad m1) "A" in
     (evs = [] \/ exists s, evs = [select s]) /\
     (evs <> [] <-> aPressed = true \/ kSelect f = true) /\
     (GamepadManager.justPressed (gamepad m1) "A" = true <->
      exists p,
        GamepadManager.firstConnected (pads f) = Some p /\
        GamepadManager.pressedAt (Pad.buttons p) 0 = true /\
        default false (GamepadManager._prevButtons (gamepad m) !! 0%nat)
          = false) /\
     (forall s, evs = [select s] -> preferGamepad m1 = false ->
                s = src_keyboard) /\
     (forall s, evs = [select s] -> aPressed = true -> s = src_gamepad))
  /\
  snd <$> run new pressHoldReleasePress =
    [[select src_gamepad]; []; []; [select src_gamepad]].
Proof.
  split; [| vm_compute; reflexivity].
  intros m f m1 evs aPressed. subst evs aPressed.
  rewrite update_selects. fold m1.
  split; [apply selectEvents_cases |].
  split; [| split; [apply justPressed_A_iff |]].
  - unfold selectEvents.
    destruct (preferGamepad m1);
      destruct (GamepadManager.justPressed (gamepad m1) "A");
      destruct (kSelect f); cbn; split; intros H; try done;
      try (by left); try (by right); destruct H; done.
  - unfold selectEvents. split; intros s Hs Hp.
    + rewrite Hp in Hs. destruct (_ || _); [| discriminate].
      by injection Hs as <-.
    + apply andb_true_iff in Hp as [Hp Ha]. rewrite Hp, Ha in Hs.
      cbn in Hs. by injection Hs as <-.
Qed.

Lemma select_is_edge_triggered_witness :
  preferGamepad (poll new (aFrame 0 true)) = true /\
  GamepadManager.justPressed (gamepad (poll new (aFrame 0 true))) "A"
    = true /\
  selects (snd (update new (aFrame 0 true))) = [select src_gamepad].
Proof.
  split; [reflexivity |]. split; [reflexivity |].
  destruct select_is_edge_triggered as [H _].
  destruct (H new (aFrame 0 true)) as (Hone & Hiff & _ & _ & Hsrc).
  destruct Hone as [Hnil | [s Hs]].
  - exfalso. apply (proj2 Hiff); [left; reflexivity | exact Hnil].
  - rewrite Hs. f_equal. f_equal. apply (Hsrc s Hs). reflexivity.
Defined.

(** * Further properties of the code *)

(** ** The pad chosen by a poll *)

(** The poll takes the first entry of [getGamepads()] that is a connected
    pad, skipping empty slots and disconnected pads before it; it finds
    none only when no entry is a connected pad.  [isConnected()] after the
    poll says which case it was. *)
Theorem poll_takes_first_connected_pad
        (g : GamepadManager.t) (ps : list (option Pad.Gamepad)) :
  match GamepadManager.firstConnected ps with
  | Some p =>
      GamepadManager.isConnected (GamepadManager.update g ps) = true /\
      GamepadManager.pad (GamepadManager.update g ps) = Some p /\
      exists i,
        ps !! i = Some (Some p) /\ Pad.connected p = true /\
        forall j q, (j < i)%nat -> ps !! j = Some (Some q) ->
                    Pad.connected q = false
  | None =>
      GamepadManager.isConnected (GamepadManager.update g ps) = false /\
      forall i q, ps !! i = Some (Some q) -> Pad.connected q = false
  end.
Proof.
  rewrite isConnected_update.
  destruct (GamepadManager.firstConnected ps) as [p |] eqn:Hp.
  - split; [reflexivity |].
    split; [by rewrite (update_connected _ _ _ Hp) |].
    clear g. unfold GamepadManager.firstConnected in Hp.
    induction ps as [| o ps IH]; [discriminate |].
    cbn [List.filter] in Hp.
    destruct (GamepadManager.live o) eqn:Hl.
    + subst o. exists 0%nat.
      split; [reflexivity |]. split; [exact Hl |]. intros j q Hj. lia.
    + destruct (IH Hp) as (i & Hi & Hc & Hbefore).
      exists (S i). split; [exact Hi |]. split; [exact Hc |].
      intros [| j] q Hj Hq.
      * cbn in Hq. injection Hq as ->. exact Hl.
      * apply (Hbefore j q); [lia | exact Hq].
  - split; [reflexivity |].
    clear g. unfold GamepadManager.firstConnected in Hp.
    induction ps as [| o ps IH]; intros i q Hi; [by destruct i |].
    cbn [List.filter] in Hp.
    destruct (GamepadManager.live o) eqn:Hl.
    + destruct o; discriminate.
    + destruct i as [| i].
      * cbn in Hi. injection Hi as ->. exact Hl.
      * apply (IH Hp i q Hi).
Qed.

(** ** Press edges over successive polls *)

Lemma justPressed_two_polls
      (g : GamepadManager.t) (ps1 ps2 : list (option Pad.Gamepad))
      (p1 p2 : Pad.Gamepad) (name : string) (i : nat) :
  GamepadManager.firstConnected ps1 = Some p1 ->
  GamepadManager.firstConnected ps2 = Some p2 ->
  GamepadManager.justPressedMap !! name = Some i ->
  GamepadManager.justPressed
    (GamepadManager.update (GamepadManager.update g ps1) ps2) name =
  GamepadManager.pressedAt (Pad.buttons p2) i
  && negb (GamepadManager.pressedAt (Pad.buttons p1) i).
Proof.
  intros H1 H2 Hn.
  rewrite (justPressed_connected _ _ _ _ _ H2 Hn).
  rewrite (update_connected _ _ _ H1). cbn [GamepadManager._prevButtons].
  by rewrite pressedAt_map.
Qed.

(** Across two successive polls that both find a pad, [justPressed(name)]
    after the second is: down on the second and not down on the first. *)
Theorem justPressed_compares_successive_polls
        (g : GamepadManager.t) (ps1 ps2 : list (option Pad.Gamepad))
        (p1 p2 : Pad.Gamepad) (name : string) (i : nat) :
  GamepadManager.firstConnected ps1 = Some p1 ->
  GamepadManager.firstConnected ps2 = Some p2 ->
  GamepadManager.justPressedMap !! name = Some i ->
  GamepadManager.justPressed
    (GamepadManager.update (GamepadManager.update g ps1) ps2) name =
  GamepadManager.pressedAt (Pad.buttons p2) i
  && negb (GamepadManager.pressedAt (Pad.buttons p1) i).
Proof. apply justPressed_two_polls. Qed.

Lemma justPressed_compares_successive_polls_witness :
  GamepadManager.justPressed
    (GamepadManager.update
       (GamepadManager.update GamepadManager.new
          [Some (padWith [false; false] [])])
       [None; Some (padWith [false; true] [])]) "B" = true.
Proof.
  rewrite (justPressed_compares_successive_polls GamepadManager.new
             [Some (padWith [false; false] [])]
             [None; Some (padWith [false; true] [])]
             (padWith [false; false] []) (padWith [false; true] [])
             "B" 1 eq_refl eq_refl eq_refl).
  reflexivity.
Defined.

Lemma justPressed_true_inv (g : GamepadManager.t)
      (ps : list (option Pad.Gamepad)) (name : string) :
  GamepadManager.justPressed (GamepadManager.update g ps) name = true ->
  exists p i,
    GamepadManager.firstConnected ps = Some p /\
    GamepadManager.justPressedMap !! name = Some i /\
    GamepadManager.pressedAt (Pad.buttons p) i = true.
Proof.
  intros H.
  destruct (GamepadManager.firstConnected ps) as [p |] eqn:Hp.
  - destruct (GamepadManager.justPressedMap !! name) as [i |] eqn:Hn.
    + rewrite (justPressed_connected _ _ _ _ _ Hp Hn) in H.
      apply andb_true_iff in H as [H _]. eauto.
    + rewrite (update_connected _ _ _ Hp) in H.
      unfold GamepadManager.justPressed in H.
      cbn [GamepadManager.pad] in H. rewrite Hn in H. discriminate.
  - rewrite (update_disconnected _ _ Hp) in H. discriminate.
Qed.

(** A press is reported on one poll only: if [justPressed(name)] is true
    after a poll, it is false after the next one, whatever that poll
    finds. *)
Theorem justPressed_lasts_one_poll
        (g : GamepadManager.t) (ps1 ps2 : list (option Pad.Gamepad))
        (name : string) :
  GamepadManager.justPressed (GamepadManager.update g ps1) name = true ->
  GamepadManager.justPressed
    (GamepadManager.update (GamepadManager.update g ps1) ps2) name = false.
Proof.
  intros H. destruct (justPressed_true_inv _ _ _ H) as (p1 & i & H1 & Hn & Hd).
  destruct (GamepadManager.firstConnected ps2) as [p2 |] eqn:H2.
  - rewrite (justPressed_two_polls _ _ _ _ _ _ _ H1 H2 Hn).
    rewrite Hd. apply andb_false_r.
  - by rewrite (update_disconnected _ _ H2).
Qed.

Lemma justPressed_lasts_one_poll_witness :
  GamepadManager.justPressed
    (GamepadManager.update GamepadManager.new [Some (padWith [true] [])])
    "A" = true /\
  GamepadManager.justPressed
    (GamepadManager.update
       (GamepadManager.update GamepadManager.new [Some (padWith [true] [])])
       [Some (padWith [true] [])]) "A" = false.
Proof.
  split; [reflexivity |].
  apply (justPressed_lasts_one_poll GamepadManager.new
           [Some (padWith [true] [])] [Some (padWith [true] [])] "A").
  reflexivity.
Defined.

(** ** The pressed-button list and the trigger value *)

Lemma BUTTONS_names_NoDup : NoDup (GamepadManager.BUTTONS.*1).
Proof. apply (bool_decide_unpack _). vm_compute. exact I. Qed.

Lemma buttonIndex_elem (name : string) (idx : nat) :
  GamepadManager.buttonIndex name = Some idx <->
  (name, idx) ∈ GamepadManager.BUTTONS.
Proof.
  unfold GamepadManager.buttonIndex. symmetry.
  apply elem_of_list_to_map, BUTTONS_names_NoDup.
Qed.

Lemma filter_sublist {A : Type} (f : A -> bool) (l : list A) :
  sublist (List.filter f l) l.
Proof.
  induction l as [| a l IH]; cbn; [constructor |].
  destruct (f a); by constructor.
Qed.

Lemma getPressedButtons_elem (g : GamepadManager.t) (p : Pad.Gamepad)
      (name : string) :
  GamepadManager.pad g = Some p ->
  name ∈ GamepadManager.getPressedButtons g <->
  exists idx b,
    GamepadManager.buttonIndex name = Some idx /\
    Pad.buttons p !! idx = Some b /\
    GamepadManager.held g b = true.
Proof.
  intros Hp. unfold GamepadManager.getPressedButtons. rewrite Hp.
  rewrite list_elem_of_In, in_map_iff. split.
  - intros ([n idx] & <- & Hin). apply filter_In in Hin as [Hin Hl].
    unfold GamepadManager.listed in Hl. cbn [snd] in Hl.
    destruct (Pad.buttons p !! idx) as [b |] eqn:Hb; [| discriminate].
    exists idx, b. cbn [fst]. split; [| done].
    by apply buttonIndex_elem, list_elem_of_In.
  - intros (idx & b & Hi & Hb & Hh). exists (name, idx).
    split; [reflexivity |]. apply filter_In. split.
    + by apply list_elem_of_In, buttonIndex_elem.
    + unfold GamepadManager.listed. cbn [snd]. by rewrite Hb.
Qed.

(** On a connected pad [getPressedButtons()] lists a name exactly when
    the name is in [BUTTONS], the pad has a button at its index, and that
    button is pressed or its value is non-zero and above the trigger
    threshold.  Every name is listed at most once, in the order of
    [BUTTONS]. *)
Theorem getPressedButtons_lists_held_buttons
        (g : GamepadManager.t) (p : Pad.Gamepad) :
  GamepadManager.pad g = Some p ->
  (forall name,
     name ∈ GamepadManager.getPressedButtons g <->
     exists idx b,
       GamepadManager.buttonIndex name = Some idx /\
       Pad.buttons p !! idx = Some b /\
       (Pad.pressed b = true \/
        (~ (Pad.value b == 0)%Q /\
         (GamepadManager.triggerThreshold g < Pad.value b)%Q))) /\
  NoDup (GamepadManager.getPressedButtons g) /\
  sublist (GamepadManager.getPressedButtons g) (GamepadManager.BUTTONS.*1).
Proof.
  intros Hp.
  assert (sublist (GamepadManager.getPressedButtons g)
                  (GamepadManager.BUTTONS.*1)) as Hsub.
  { unfold GamepadManager.getPressedButtons. rewrite Hp.
    apply (fmap_sublist fst), filter_sublist. }
  split; [| split; [| exact Hsub]].
  - intros name. rewrite (getPressedButtons_elem g p name Hp).
    split; intros (idx & b & Hi & Hb & Hh); exists idx, b;
      (split; [exact Hi |]); (split; [exact Hb |]).
    + unfold GamepadManager.held in Hh.
      apply orb_true_iff in Hh as [Hh | Hh]; [by left | right].
      apply andb_true_iff in Hh as [Hz Ht].
      apply negb_true_iff in Hz. split.
      * by apply Qeq_bool_neq.
      * by apply Qltb_lt.
    + unfold GamepadManager.held. apply orb_true_iff.
      destruct Hh as [Hh | [Hz Ht]]; [by left | right].
      apply andb_true_iff. split.
      * apply negb_true_iff. destruct (Qeq_bool _ 0) eqn:E; [| done].
        by apply Qeq_bool_eq in E.
      * by apply Qltb_lt.
  - exact (sublist_NoDup _ _ BUTTONS_names_NoDup Hsub).
Qed.

Lemma getPressedButtons_lists_held_buttons_witness :
  GamepadManager.getPressedButtons
    (GamepadManager.update GamepadManager.new
       [Some (padWith [true; false; true] [])]) = ["A"; "X"]%string /\
  NoDup (GamepadManager.getPressedButtons
    (GamepadManager.update GamepadManager.new
       [Some (padWith [true; false; true] [])])).
Proof.
  split; [reflexivity |].
  apply (getPressedButtons_lists_held_buttons
           (GamepadManager.update GamepadManager.new
              [Some (padWith [true; false; true] [])])
           (padWith [true; false; true] []) eq_refl).
Defined.

Lemma pressedAt_true (b : list Pad.GamepadButton) (i : nat) :
  GamepadManager.pressedAt b i = true ->
  exists btn, b !! i = Some btn /\ Pad.pressed btn = true.
Proof.
  unfold GamepadManager.pressedAt.
  destruct (b !! i) as [btn |]; cbn; [eauto | discriminate].
Qed.

Lemma pressed_listed (g : GamepadManager.t) (p : Pad.Gamepad)
      (name : string) (idx : nat) :
  GamepadManager.pad g = Some p ->
  GamepadManager.buttonIndex name = Some idx ->
  GamepadManager.pressedAt (Pad.buttons p) idx = true ->
  name ∈ GamepadManager.getPressedButtons g.
Proof.
  intros Hp Hi Hd. destruct (pressedAt_true _ _ Hd) as (btn & Hb & Hpr).
  apply (getPressedButtons_elem g p name Hp). exists idx, btn.
  split; [exact Hi |]. split; [exact Hb |].
  unfold GamepadManager.held. by rewrite Hpr.
Qed.

(** The literal map of [justPressed] agrees with [BUTTONS]. *)
Lemma justPressedMap_in_BUTTONS (name : string) (i : nat) :
  GamepadManager.justPressedMap !! name = Some i ->
  GamepadManager.buttonIndex name = Some i.
Proof.
  intros H. apply elem_of_list_to_map_2 in H.
  repeat (apply elem_of_cons in H as [[= -> ->] | H]; [reflexivity |]).
  by apply elem_of_nil in H.
Qed.

(** After a poll, every button that [justPressed] reports is in the list
    that [getPressedButtons()] returns. *)
Theorem just_pressed_button_is_listed
        (g : GamepadManager.t) (ps : list (option Pad.Gamepad))
        (name : string) :
  GamepadManager.justPressed (GamepadManager.update g ps) name = true ->
  name ∈ GamepadManager.getPressedButtons (GamepadManager.update g ps).
Proof.
  intros H. destruct (justPressed_true_inv _ _ _ H) as (p & i & Hp & Hn & Hd).
  apply (pressed_listed _ p name i).
  - by rewrite (update_connected _ _ _ Hp).
  - by apply justPressedMap_in_BUTTONS.
  - exact Hd.
Qed.

Lemma just_pressed_button_is_listed_witness :
  "Y"%string ∈ GamepadManager.getPressedButtons
    (GamepadManager.update GamepadManager.new
       [Some (padWith [false; false; false; true] [])]).
Proof.
  apply (just_pressed_button_is_listed GamepadManager.new
           [Some (padWith [false; false; false; true] [])] "Y").
  reflexivity.
Defined.

(** With a non-negative trigger threshold, a button whose [getTrigger]
    value exceeds the threshold is in the list of [getPressedButtons()].
    (The constructor sets the threshold to 0.1 and no method changes
    it.) *)
Theorem trigger_above_threshold_is_listed
        (g : GamepadManager.t) (name : string) :
  (0 <= GamepadManager.triggerThreshold g)%Q ->
  (GamepadManager.triggerThreshold g < GamepadManager.getTrigger g name)%Q ->
  name ∈ GamepadManager.getPressedButtons g.
Proof.
  intros H0 Hgt. unfold GamepadManager.getTrigger in Hgt.
  destruct (GamepadManager.pad g) as [p |] eqn:Hp; [| lra].
  destruct (GamepadManager.buttonIndex name) as [idx |] eqn:Hi; [| lra].
  destruct (Pad.buttons p !! idx) as [btn |] eqn:Hb; [| lra].
  apply (getPressedButtons_elem g p name Hp). exists idx, btn.
  split; [exact Hi |]. split; [exact Hb |].
  unfold GamepadManager.held. apply orb_true_iff. right.
  apply andb_true_iff. split.
  - apply negb_true_iff. destruct (Qeq_bool _ 0) eqn:E; [| done].
    apply Qeq_bool_eq in E. lra.
  - by apply Qltb_lt.
Qed.

Lemma trigger_above_threshold_is_listed_witness :
  let g := GamepadManager.update GamepadManager.new
             [Some {| Pad.id := "pad"; Pad.connected := true;
                      Pad.buttons :=
                        replicate 6 (button false)
                        ++ [{| Pad.pressed := false; Pad.value := 0.5 |}];
                      Pad.axes := [] |}] in
  GamepadManager.getTrigger g "LT" = 0.5%Q /\
  "LT"%string ∈ GamepadManager.getPressedButtons g.
Proof.
  split; [reflexivity |].
  apply trigger_above_threshold_is_listed; reflexivity || (cbn; discriminate).
Defined.

(** A D-pad direction that [getDpad()] reports down is listed by
    [getPressedButtons()] under its name. *)
Theorem dpad_direction_is_listed (g : GamepadManager.t) (dp : Dpad) :
  GamepadManager.getDpad g = Some dp ->
  (dpad_up dp = true -> "UP"%string ∈ GamepadManager.getPressedButtons g) /\
  (dpad_down dp = true ->
   "DOWN"%string ∈ GamepadManager.getPressedButtons g) /\
  (dpad_left dp = true ->
   "LEFT"%string ∈ GamepadManager.getPressedButtons g) /\
  (dpad_right dp = true ->
   "RIGHT"%string ∈ GamepadManager.getPressedButtons g).
Proof.
  unfold GamepadManager.getDpad.
  destruct (GamepadManager.pad g) as [p |] eqn:Hp; [| discriminate].
  intros [= <-]. cbn.
  repeat split; intros H;
    [apply (pressed_listed g p "UP" 12 Hp eq_refl H)
    | apply (pressed_listed g p "DOWN" 13 Hp eq_refl H)
    | apply (pressed_listed g p "LEFT" 14 Hp eq_refl H)
    | apply (pressed_listed g p "RIGHT" 15 Hp eq_refl H)].
Qed.

Lemma dpad_direction_is_listed_witness :
  "LEFT"%string ∈ GamepadManager.getPressedButtons
    (GamepadManager.update GamepadManager.new
       [Some (padWith dpadLeftOnly [])]).
Proof.
  destruct (dpad_direction_is_listed
              (GamepadManager.update GamepadManager.new
                 [Some (padWith dpadLeftOnly [])])
              {| dpad_up := false; dpad_down := false;
                 dpad_left := true; dpad_right := false |} eq_refl)
    as (_ & _ & H & _).
  apply H. reflexivity.
Defined.

(** ** A poll that finds no pad *)

(** After a poll that finds no connected pad every query of the adapter
    returns its neutral value: not connected, stick at (0, 0), no D-pad
    object, no press, trigger 0, no pressed buttons. *)
Theorem disconnected_poll_gives_neutral_queries
        (g : GamepadManager.t) (ps : list (option Pad.Gamepad)) :
  GamepadManager.firstConnected ps = None ->
  let g' := GamepadManager.update g ps in
  GamepadManager.isConnected g' = false /\
  (forall name, GamepadManager.getStick g' name = {| x := 0; y := 0 |}) /\
  GamepadManager.getDpad g' = None /\
  (forall name, GamepadManager.justPressed g' name = false) /\
  (forall name, GamepadManager.getTrigger g' name = 0%Q) /\
  GamepadManager.getPressedButtons g' = [].
Proof.
  intros H g'. subst g'. rewrite (update_disconnected _ _ H).
  repeat split.
Qed.

Lemma disconnected_poll_gives_neutral_queries_witness :
  let g := GamepadManager.update
             (GamepadManager.update GamepadManager.new
                [Some (padWith [true] [0.7; 0.7]%Q)])
             [None; Some {| Pad.id := "gone"; Pad.connected := false;
                            Pad.buttons := [button true];
                            Pad.axes := [1; 1]%Q |}] in
  GamepadManager.isConnected g = false /\
  GamepadManager.getStick g "LEFT" = {| x := 0; y := 0 |} /\
  GamepadManager.getTrigger g "A" = 0%Q.
Proof.
  destruct (disconnected_poll_gives_neutral_queries
              (GamepadManager.update GamepadManager.new
                 [Some (padWith [true] [0.7; 0.7]%Q)])
              [None; Some {| Pad.id := "gone"; Pad.connected := false;
                             Pad.buttons := [button true];
                             Pad.axes := [1; 1]%Q |}] eq_refl)
    as (Hc & Hs & _ & _ & Ht & _).
  split; [exact Hc |]. split; [apply Hs | apply Ht].
Defined.

(** ** The event system *)

Lemma on_lookup {H : Type} (ls : gmap string (list H)) (type type' : string)
      (cb : H) :
  default [] (on ls type cb !! type') =
  default [] (ls !! type') ++ (if decide (type = type') then [cb] else []).
Proof.
  unfold on. destruct (ls !! type) as [cbs |] eqn:E.
  - rewrite E, lookup_insert. case_decide as Hd.
    + subst. by rewrite E.
    + by rewrite app_nil_r.
  - rewrite lookup_insert_eq, lookup_insert. case_decide as Hd.
    + subst. by rewrite E.
    + rewrite lookup_insert_ne by done. by rewrite app_nil_r.
Qed.

Lemma onAll_lookup {H : Type} (regs : list (string * H))
      (ls : gmap string (list H)) (type : string) :
  default [] (onAll ls regs !! type) =
  default [] (ls !! type) ++ registeredFor type regs.
Proof.
  revert ls. induction regs as [| [t cb] regs IH]; intros ls.
  - unfold registeredFor. cbn. by rewrite app_nil_r.
  - change (onAll ls ((t, cb) :: regs)) with (onAll (on ls t cb) regs).
    rewrite IH, on_lookup. unfold registeredFor. cbn [List.filter fst snd].
    case_decide as Hd.
    + rewrite bool_decide_eq_true_2 by done. cbn. by rewrite <- app_assoc.
    + rewrite bool_decide_eq_false_2 by done. by rewrite app_nil_r.
Qed.

Lemma emit_default {H P : Type} (ls : gmap string (list H)) (type : string)
      (payload : P) :
  emit ls type payload =
  map (fun cb => (cb, payload)) (default [] (ls !! type)).
Proof. unfold emit. by destruct (ls !! type). Qed.

(** [emit(type, payload)] calls exactly the callbacks that earlier
    [on(type, ...)] calls registered for that type, each once with the
    payload, in registration order; callbacks of other types are not
    called. *)
Theorem emit_calls_listeners_in_registration_order
        {H P : Type} (regs : list (string * H)) (type : string)
        (payload : P) :
  emit (onAll ∅ regs) type payload =
  map (fun cb => (cb, payload)) (registeredFor type regs).
Proof. by rewrite emit_default, onAll_lookup, lookup_empty. Qed.

(** ** The active input method *)

(** After a call of [update], [getActiveInputMethod()] is gamepad exactly
    when that call's poll found a connected pad: the method falls back to
    the keyboard on the frame the pad goes away, although [preferGamepad]
    itself stays set. *)
Theorem active_method_follows_connection (m : t) (f : Frame) :
  (getActiveInputMethod (fst (update m f)) = src_gamepad <->
   is_Some (GamepadManager.firstConnected (pads f))) /\
  (getActiveInputMethod (fst (update m f)) = src_keyboard <->
   GamepadManager.firstConnected (pads f) = None).
Proof.
  unfold getActiveInputMethod.
  rewrite update_prefer, update_gamepad, isConnected_update.
  destruct (GamepadManager.firstConnected (pads f)) as [p |]; cbn.
  - split; split; try done; eauto.
  - rewrite ?andb_false_r. split; split; try done; by intros [? ?].
Qed.

(** ** Frames without a pad *)

(** On a frame whose poll finds no connected pad, a manager with a
    positive navigation deadzone resolves the direction the keyboard
    reports, whether or not the gamepad is the preferred device. *)
Theorem frame_without_pad_resolves_keyboard (m : t) (f : Frame) :
  (0 < _deadzone m)%Q ->
  GamepadManager.firstConnected (pads f) = None ->
  resolved m f = kArrow f.
Proof.
  intros Hdz Hp. unfold resolved, resolveDir, dpadDir.
  rewrite poll_gamepad, (update_disconnected _ _ Hp). cbn.
  destruct (preferGamepad (poll m f)); [| reflexivity].
  assert (_getDominantDirFromAxes (poll m f) 0 0 = None) as ->;
    [| reflexivity].
  rewrite dominant_poll. apply dominant_none_iff.
  split; exact Hdz.
Qed.

Lemma frame_without_pad_resolves_keyboard_witness :
  preferGamepad (before new plugThenUnplug 2) = true /\
  resolved (before new plugThenUnplug 2)
           {| ts := 32; pads := [None]; kSelect := false;
              kArrow := Some up |} = Some up.
Proof.
  split; [reflexivity |].
  apply (frame_without_pad_resolves_keyboard
           (before new plugThenUnplug 2)
           {| ts := 32; pads := [None]; kSelect := false;
              kArrow := Some up |}); reflexivity.
Defined.

Lemma keyboard_only_step (m : t) (f : Frame) :
  preferGamepad m = false ->
  GamepadManager.firstConnected (pads f) = None ->
  preferGamepad (fst (update m f)) = false /\
  resolved m f = kArrow f /\
  selects (snd (update m f)) =
    (if kSelect f then [select src_keyboard] else []).
Proof.
  intros Hpref Hp.
  assert (preferGamepad (poll m f) = false) as Hpoll
    by (by rewrite poll_prefer, isConnected_update, Hp, Hpref).
  split; [| split].
  - by rewrite update_prefer, update_gamepad, isConnected_update, Hp, Hpref.
  - unfold resolved, resolveDir, dpadDir. rewrite Hpoll.
    by destruct (GamepadManager.getDpad _).
  - rewrite update_selects. unfold selectEvents. rewrite Hpoll. cbn.
    by destruct (kSelect f).
Qed.

(** A session in which no poll ever finds a connected pad is driven by
    the keyboard alone: on every frame the resolved direction is the
    keyboard's arrow direction, a select event is emitted exactly when the
    keyboard reports SELECT just pressed, and its source is the
    keyboard. *)
Theorem session_without_pad_is_keyboard_only
        (m : t) (fs : list Frame) (i : nat) (f : Frame) :
  preferGamepad m = false ->
  Forall (fun g => GamepadManager.firstConnected (pads g) = None) fs ->
  fs !! i = Some f ->
  dirs m fs !! i = Some (kArrow f) /\
  (snd <$> run m fs !! i) =
    Some ((if kSelect f then [select src_keyboard] else [])
          ++ navs (snd (update (before m fs i) f))).
Proof.
  intros Hpref Hall Hf.
  assert (forall k, preferGamepad (before m fs k) = false) as Hinv.
  { induction k as [| k IH]; [by rewrite before_0 |].
    destruct (fs !! k) as [g |] eqn:Hg.
    - rewrite (before_S _ _ _ _ Hg).
      apply keyboard_only_step; [exact IH |].
      rewrite Forall_lookup in Hall. by apply (Hall k g).
    - by rewrite (before_past_end _ _ _ Hg). }
  assert (GamepadManager.firstConnected (pads f) = None) as Hp
    by (rewrite Forall_lookup in Hall; by apply (Hall i f)).
  destruct (keyboard_only_step (before m fs i) f (Hinv i) Hp)
    as (_ & Hd & Hs).
  split.
  - by rewrite dirs_lookup, Hf; cbn; rewrite Hd.
  - rewrite run_lookup, Hf. cbn. f_equal.
    rewrite <- Hs, update_navs, update_selects. apply update_snd.
Qed.

Lemma session_without_pad_is_keyboard_only_witness :
  dirs new heldRight !! 2%nat = Some (Some right) /\
  (snd <$> run new heldRight !! 2%nat) = Some [nav right repeat].
Proof.
  destruct (session_without_pad_is_keyboard_only new heldRight 2
              (keyFrame 225 (Some right)) eq_refl) as [Hd He].
  - repeat constructor.
  - reflexivity.
  - split; [exact Hd |]. rewrite He. reflexivity.
Defined.

(** ** The dominant axis *)

(** A direction returned by [_getDominantDirFromAxes] points along an
    axis whose deflection, in that direction, is at least the deadzone
    and at least (for the vertical axis: more than) the magnitude of the
    other axis.  Positive y is down. *)
Theorem dominant_direction_is_beyond_deadzone
        (m : t) (ax ay : Q) (d : Direction) :
  _getDominantDirFromAxes m ax ay = Some d ->
  match d with
  | right => (_deadzone m <= ax)%Q /\ (Qabs ay <= ax)%Q
  | left => (_deadzone m <= - ax)%Q /\ (Qabs ay <= - ax)%Q
  | down => (_deadzone m <= ay)%Q /\ (Qabs ax < ay)%Q
  | up => (_deadzone m <= - ay)%Q /\ (Qabs ax < - ay)%Q
  end.
Proof.
  unfold _getDominantDirFromAxes. cbn zeta.
  destruct (Qltb (Qabs ax) (_deadzone m) && Qltb (Qabs ay) (_deadzone m))
    eqn:Edz; [discriminate |].
  assert ((_deadzone m <= Qabs ax)%Q \/ (_deadzone m <= Qabs ay)%Q) as Hout.
  { apply andb_false_iff in Edz as [E | E]; apply Qltb_ge in E; auto. }
  destruct (Qleb (Qabs ay) (Qabs ax)) eqn:Eh.
  - apply Qleb_le in Eh.
    destruct (Qltb 0 ax) eqn:Es; intros [= <-].
    + apply Qltb_lt in Es. rewrite (Qabs_pos ax) in * by lra.
      split; [destruct Hout; lra | exact Eh].
    + apply Qltb_ge in Es. rewrite (Qabs_neg ax) in * by lra.
      split; [destruct Hout; lra | exact Eh].
  - assert (Qabs ax < Qabs ay)%Q as Hv.
    { destruct (Qlt_le_dec (Qabs ax) (Qabs ay)) as [Hlt | Hle]; [exact Hlt |].
      apply Qleb_le in Hle. congruence. }
    destruct (Qltb 0 ay) eqn:Es; intros [= <-].
    + apply Qltb_lt in Es. rewrite (Qabs_pos ay) in * by lra.
      split; [destruct Hout; lra | exact Hv].
    + apply Qltb_ge in Es. rewrite (Qabs_neg ay) in * by lra.
      split; [destruct Hout; lra | exact Hv].
Qed.

Lemma dominant_direction_is_beyond_deadzone_witness :
  _getDominantDirFromAxes new 0.1 (-0.6) = Some up /\
  (_deadzone new <= - (-0.6))%Q /\ (Qabs 0.1 < - (-0.6))%Q.
Proof.
  split; [reflexivity |].
  apply (dominant_direction_is_beyond_deadzone new 0.1 (-0.6) up).
  reflexivity.
Defined.

(** ** The pass-through press query and the select event *)

(** If, after a call of [update], the gamepad is the active input method
    and the manager's [justPressed('A')] is true, then that call emitted
    exactly one select event, with source gamepad. *)
Theorem active_gamepad_press_emitted_select
        (m : t) (f : Frame) (kJustPressed : string -> bool) :
  getActiveInputMethod (fst (update m f)) = src_gamepad ->
  justPressed (fst (update m f)) kJustPressed "A" = true ->
  selects (snd (update m f)) = [select src_gamepad].
Proof.
  unfold getActiveInputMethod, justPressed.
  destruct (preferGamepad (fst (update m f))
            && GamepadManager.isConnected (gamepad (fst (update m f))))
    eqn:E; [| discriminate].
  intros _ Hj. apply andb_true_iff in E as [Hpref _].
  rewrite update_selects. unfold selectEvents.
  rewrite update_fst in Hpref, Hj.
  destruct (navStep_frame (poll m f) (ts f) (resolved m f))
    as (Hg & Hp & _).
  rewrite Hp in Hpref. rewrite Hg in Hj. by rewrite Hpref, Hj.
Qed.

Lemma active_gamepad_press_emitted_select_witness :
  selects (snd (update new (aFrame 0 true))) = [select src_gamepad].
Proof.
  apply (active_gamepad_press_emitted_select new (aFrame 0 true)
           (fun _ => false)); reflexivity.
Defined.

(** ** Auto-repeat of a held direction *)

(** A frame that continues a run emits a repeat exactly when its
    timestamp has reached the deadline; otherwise it emits nothing and
    leaves the deadline where it was. *)
Lemma held_frame_deadline (m : t) (fs : list Frame) (j : nat)
      (d : Direction) :
  holds (dirs m fs) j d -> holds (dirs m fs) (S j) d ->
  if Qleb (_nextRepeatAt (before m fs (S j))) (tsAt fs (S j))
  then navsAt (run m fs) (S j) = [nav d repeat]
  else navsAt (run m fs) (S j) = [] /\
       _nextRepeatAt (before m fs (S (S j))) =
       _nextRepeatAt (before m fs (S j)).
Proof.
  intros Hj Hi.
  destruct (holds_frame _ _ _ _ Hi) as (f & Hf & Hd).
  rewrite (navsAt_frame _ _ _ _ Hf), (tsAt_frame _ _ _ Hf).
  rewrite (before_S _ _ _ _ Hf).
  destruct (update_timer (before m fs (S j)) f) as (_ & _ & _ & Hcase).
  rewrite Hd in Hcase.
  rewrite bool_decide_eq_true_2 in Hcase
    by (exact (before_activeDir m fs j d Hj)).
  destruct (Qleb _ _); [apply Hcase |].
  destruct Hcase as [Hn Hout]. by split.
Qed.

Lemma repeat_or_deadline_waits (m : t) (fs : list Frame) (i n : nat)
      (d : Direction) (mo : Mode) :
  navsAt (run m fs) i = [nav d mo] ->
  (forall k, (i <= k <= i + n)%nat -> holds (dirs m fs) k d) ->
  (exists k, (i < k <= i + n)%nat /\ navsAt (run m fs) k = [nav d repeat]) \/
  _nextRepeatAt (before m fs (S i + n)) = dadd (tsAt fs i) (delayAfter m mo).
Proof.
  intros Hev Hrun. induction n as [| n IH].
  - right. rewrite Nat.add_0_r. exact (event_arms m fs i d mo Hev).
  - destruct IH as [(k & Hk & Hrep) | Hwait].
    + intros k Hk. apply Hrun. lia.
    + left. exists k. split; [lia | exact Hrep].
    + assert (holds (dirs m fs) (i + n) d) as Hprev by (apply Hrun; lia).
      assert (holds (dirs m fs) (S (i + n)) d) as Hcur by (apply Hrun; lia).
      pose proof (held_frame_deadline m fs (i + n) d Hprev Hcur) as Hc.
      destruct (Qleb _ _).
      * left. exists (S (i + n)). split; [lia | exact Hc].
      * right. destruct Hc as [_ Hn].
        replace (S i + S n)%nat with (S (S (i + n))) by lia.
        rewrite Hn. exact Hwait.
Qed.

Lemma repeats_once_deadline_reached
      (m : t) (fs : list Frame) (i j : nat) (d : Direction) (mo : Mode) :
  (i < j)%nat ->
  (forall k, (i <= k <= j)%nat -> holds (dirs m fs) k d) ->
  navsAt (run m fs) i = [nav d mo] ->
  (dadd (tsAt fs i) (delayAfter m mo) <= tsAt fs j)%Q ->
  exists k, (i < k <= j)%nat /\ navsAt (run m fs) k = [nav d repeat].
Proof.
  intros Hij Hrun Hev Hdue.
  destruct j as [| j]; [lia |].
  destruct (repeat_or_deadline_waits m fs i (j - i) d mo Hev)
    as [(k & Hk & Hrep) | Hwait].
  - intros k Hk. apply Hrun. lia.
  - exists k. split; [lia | exact Hrep].
  - replace (S i + (j - i))%nat with (S j) in Hwait by lia.
    exists (S j). split; [lia |].
    assert (holds (dirs m fs) j d) as Hprev by (apply Hrun; lia).
    assert (holds (dirs m fs) (S j) d) as Hcur by (apply Hrun; lia).
    pose proof (held_frame_deadline m fs j d Hprev Hcur) as Hc.
    rewrite Hwait in Hc.
    apply Qleb_le in Hdue. by rewrite Hdue in Hc.
Qed.

(** Once an event of a run has armed its delay (220 ms after an edge,
    85 ms after a repeat, by default), a later frame of the same run whose
    timestamp has reached the armed deadline is preceded or accompanied by
    a repeat; a later frame whose timestamp, a double, is at least the
    event's timestamp plus the delay has reached it.  Holding a direction
    long enough always repeats it. *)
Theorem held_direction_repeats_once_due
        (m : t) (fs : list Frame) (i j : nat) (d : Direction) (mo : Mode) :
  (i < j)%nat ->
  (forall k, (i <= k <= j)%nat -> holds (dirs m fs) k d) ->
  navsAt (run m fs) i = [nav d mo] ->
  ((dadd (tsAt fs i) (delayAfter m mo) <= tsAt fs j)%Q ->
   exists k, (i < k <= j)%nat /\ navsAt (run m fs) k = [nav d repeat]) /\
  (isDouble (tsAt fs j) ->
   (tsAt fs i + delayAfter m mo <= tsAt fs j)%Q ->
   exists k, (i < k <= j)%nat /\ navsAt (run m fs) k = [nav d repeat]).
Proof.
  intros Hij Hrun Hev. split.
  - by apply repeats_once_deadline_reached.
  - intros Hdbl Hdue.
    apply (repeats_once_deadline_reached m fs i j d mo Hij Hrun Hev).
    by apply dadd_le_double.
Qed.

Lemma held_direction_repeats_once_due_witness :
  exists k, (0 < k <= 3)%nat /\
            navsAt (run new heldRight) k = [nav right repeat].
Proof.
  destruct (held_direction_repeats_once_due new heldRight 0 3 right edge)
    as [_ H].
  - lia.
  - intros k Hk. apply heldRight_holds. lia.
  - vm_compute. reflexivity.
  - apply H.
    + vm_compute. reflexivity.
    + cbn. discriminate.
Defined.

(** ** The two timers *)

Lemma Qleb_agree (a b a' b' : Q) :
  (a <= b <-> a' <= b')%Q -> Qleb a b = Qleb a' b'.
Proof.
  intros H. destruct (Qleb a b) eqn:E1, (Qleb a' b') eqn:E2; try done.
  - apply Qleb_le, H, Qleb_le in E1. congruence.
  - apply Qleb_le, H, Qleb_le in E2. congruence.
Qed.

Lemma dadd_comp (a b b' : Q) : (b == b')%Q -> (dadd a b == dadd a b')%Q.
Proof.
  intros H. unfold dadd. apply round64_comp. by rewrite H.
Qed.

(** One step of each timer on the same whole-millisecond timestamp and
    the same direction: if the two were in step before, they emit for the
    same direction or both stay silent, and they are in step afterwards. *)
Lemma timers_step_together (tm : Timing) (m : t) (now : Q)
      (dir : option Direction) (source : Source) :
  wholeMs now ->
  inStep tm m ->
  map sn_dir (snd (navTiming tm now dir source)) =
    navDirs (snd (navStep m now dir)) /\
  inStep (fst (navTiming tm now dir source)) (fst (navStep m now dir)).
Proof.
  intros Hnow (Hdir & Hfd & Hrd & Hwf & Hwr & Hwl & Hnext).
  pose proof (dadd_whole now (initialDelay tm) Hnow Hwf) as Hsum1.
  pose proof (dadd_whole now (repeatRate tm) Hnow Hwr) as Hsum2.
  pose proof (dsub_whole now (lastInputTime tm) Hnow Hwl) as Hdiff.
  pose proof (dadd_comp now _ _ Hfd) as Hc1.
  pose proof (dadd_comp now _ _ Hrd) as Hc2.
  unfold navTiming, navStep. destruct dir as [d |]; cbn zeta.
  - rewrite Hdir.
    replace (bool_decide (Some d = _activeDir m))
      with (bool_decide (_activeDir m = Some d))
      by (apply bool_decide_ext; split; congruence).
    destruct (bool_decide (_activeDir m = Some d)) eqn:Eact; cbn [negb].
    + apply bool_decide_eq_true in Eact.
      assert (is_Some (_activeDir m)) as Hsome by (rewrite Eact; eauto).
      specialize (Hnext Hsome).
      rewrite (Qleb_agree
                 (if isFirstInput tm then initialDelay tm else repeatRate tm)
                 (dsub now (lastInputTime tm)) (_nextRepeatAt m) now)
        by (rewrite Hdiff; split; intros; lra).
      destruct (Qleb (_nextRepeatAt m) now); cbn.
      * split; [reflexivity |]. unfold inStep; cbn.
        repeat (split; [done |]). intros _. lra.
      * split; [reflexivity |]. unfold inStep.
        repeat (split; [done |]). intros _. exact Hnext.
    + cbn. split; [reflexivity |]. unfold inStep; cbn.
      repeat (split; [done |]). intros _. lra.
  - cbn. split; [reflexivity |]. unfold inStep; cbn.
    repeat (split; [done |]). intros [? [=]].
Qed.

(** The timer of [update] and the earlier timer of
    [processNavigationInputs], started in step (as the constructor leaves
    them) and fed the same directions at the same whole-millisecond
    timestamps, emit on the same frames and for the same directions.  (On
    fractional timestamps the rounding of [now - lastInputTime] and of
    [ts + delay] can differ, and the two timers with it.) *)
Theorem both_timers_emit_on_the_same_frames
        (ins : list (Q * option Direction)) (tm : Timing) (m : t)
        (source : Source) :
  Forall (fun i => wholeMs (fst i)) ins ->
  inStep tm m ->
  timingTrace tm source ins = timerTrace m ins.
Proof.
  revert tm m. induction ins as [| [now dir] ins IH]; intros tm m Hall Hstep.
  - reflexivity.
  - cbn [timingTrace timerTrace fst snd].
    inversion Hall as [| ? ? Hnow Hrest]; subst. cbn [fst] in Hnow.
    destruct (timers_step_together tm m now dir source Hnow Hstep)
      as [Hev Hnext].
    rewrite Hev. f_equal. by apply IH.
Qed.

Lemma constructor_timers_inStep : inStep newTiming new.
Proof.
  unfold inStep. cbn.
  split; [reflexivity |]. split; [reflexivity |]. split; [reflexivity |].
  split; [apply (wholeMs_Z 220); lia |].
  split; [apply (wholeMs_Z 85); lia |].
  split; [apply (wholeMs_Z 0); lia |].
  intros [? [=]].
Qed.

(** On the fractional timestamps 1000.1 and 1220.1 the two timers differ:
    [1220.1 - 1000.1] is a double below 220, so the earlier timer stays
    silent where the timer of [update] repeats. *)
Lemma timers_differ_on_fractional_stamps :
  timingTrace newTiming src_keyboard
    [(round64 1000.1, Some right); (round64 1220.1, Some right)]
  = [[right]; []] /\
  timerTrace new
    [(round64 1000.1, Some right); (round64 1220.1, Some right)]
  = [[right]; [right]].
Proof. split; vm_compute; reflexivity. Qed.

Lemma both_timers_emit_on_the_same_frames_witness :
  timingTrace newTiming src_keyboard
    [(0, Some right); (100, Some right); (225, Some right);
     (300, Some right); (312, Some right)]%Q =
  [[right]; []; [right]; []; [right]].
Proof.
  rewrite (both_timers_emit_on_the_same_frames _ newTiming new src_keyboard).
  - vm_compute. reflexivity.
  - repeat constructor; cbn [fst];
      [ apply (wholeMs_Z 0) | apply (wholeMs_Z 100) | apply (wholeMs_Z 225)
      | apply (wholeMs_Z 300) | apply (wholeMs_Z 312) ]; lia.
  - exact constructor_timers_inStep.
Defined.

(** ** Navigation sounds *)

Lemma queueOrPlay_paired (a b : Main.Audio) (type : string) :
  Main.audioUnlocked a = false -> Main.audioUnlocked b = true ->
  Main.focusRegion a = Main.focusRegion b ->
  queuedWhatPlayed a b (Main.queueOrPlay a type) (Main.queueOrPlay b type).
Proof.
  intros Ha Hb Hr. unfold Main.queueOrPlay. rewrite Ha, Hb.
  unfold queuedWhatPlayed. cbn.
  repeat (split; [done |]). exists [type].
  split; [reflexivity |]. cbn. by rewrite app_nil_r.
Qed.

Lemma silent_paired (a b : Main.Audio) :
  Main.audioUnlocked a = false -> Main.audioUnlocked b = true ->
  Main.focusRegion a = Main.focusRegion b ->
  queuedWhatPlayed a b (a, []) (b, []).
Proof.
  intros Ha Hb Hr. unfold queuedWhatPlayed. cbn.
  repeat (split; [done |]). exists []. by rewrite app_nil_r.
Qed.

Lemma onEvent_paired (a b : Main.Audio) (e : Event) :
  Main.audioUnlocked a = false -> Main.audioUnlocked b = true ->
  Main.focusRegion a = Main.focusRegion b ->
  queuedWhatPlayed a b (Main.onEvent a e) (Main.onEvent b e).
Proof.
  intros Ha Hb Hr. destruct e as [s | d mo]; cbn [Main.onEvent].
  - by apply silent_paired.
  - unfold Main.handleNavSound. rewrite <- Hr.
    destruct (negb (bool_decide (mo = edge))); [by apply silent_paired |].
    destruct (bool_decide (d = down)
              && bool_decide (Main.focusRegion a = "nav"%string)).
    { apply (queueOrPlay_paired (Main.setRegion a "carousel")
                                (Main.setRegion b "carousel")); done. }
    destruct (bool_decide (d = up)
              && bool_decide (Main.focusRegion a = "carousel"%string)).
    { apply (queueOrPlay_paired (Main.setRegion a "nav")
                                (Main.setRegion b "nav")); done. }
    destruct (bool_decide (d = left) || bool_decide (d = right));
      [| by apply silent_paired].
    destruct (bool_decide (Main.focusRegion a = "nav"%string));
      by apply queueOrPlay_paired.
Qed.

Lemma onEvents_paired (evs : list Event) (a b : Main.Audio) :
  Main.audioUnlocked a = false -> Main.audioUnlocked b = true ->
  Main.focusRegion a = Main.focusRegion b ->
  queuedWhatPlayed a b (Main.onEvents a evs) (Main.onEvents b evs).
Proof.
  revert a b. induction evs as [| e evs IH]; intros a b Ha Hb Hr.
  - by apply silent_paired.
  - cbn [Main.onEvents].
    destruct (onEvent_paired a b e Ha Hb Hr)
      as (Hs1 & Ha1 & Hb1 & Hr1 & Hp1 & q1 & Hq1 & Hpl1).
    destruct (IH _ _ Ha1 Hb1 Hr1)
      as (Hs2 & Ha2 & Hb2 & Hr2 & Hp2 & q2 & Hq2 & Hpl2).
    unfold queuedWhatPlayed. cbn [fst snd].
    split; [by rewrite Hs1, Hs2 |]. split; [exact Ha2 |].
    split; [exact Hb2 |]. split; [exact Hr2 |].
    split; [congruence |]. exists (q1 ++ q2). split.
    + rewrite Hq2, Hq1. by rewrite app_assoc.
    + by rewrite Hpl1, Hpl2, map_app, concat_app.
Qed.

Lemma flush_plays_pending (a : Main.Audio) :
  snd (Main.flushPendingSounds a) =
    concat (map Main.playType (Main.pendingSounds a)) /\
  Main.pendingSounds (fst (Main.flushPendingSounds a)) = [] /\
  Main.focusRegion (fst (Main.flushPendingSounds a)) = Main.focusRegion a /\
  Main.audioUnlocked (fst (Main.flushPendingSounds a)) = Main.audioUnlocked a.
Proof.
  unfold Main.flushPendingSounds.
  destruct (Main.pendingSounds a) eqn:E; cbn; by rewrite ?E.
Qed.

(** Sounds requested while audio is locked are not lost or reordered:
    handling a list of events locked plays nothing, and the unlock
    completion that follows plays first what was already pending and then
    exactly what the same events play when handled unlocked, leaving the
    same focus region and an empty queue. *)
Theorem queued_sounds_play_in_order_at_unlock
        (evs : list Event) (a : Main.Audio) :
  Main.audioUnlocked a = false ->
  let locked := Main.onEvents a evs in
  let direct :=
    Main.onEvents {| Main.audioUnlocked := true;
                     Main.focusRegion := Main.focusRegion a;
                     Main.pendingSounds := [] |} evs in
  let after := Main.unlocked (fst locked) in
  snd locked = [] /\
  snd after =
    concat (map Main.playType (Main.pendingSounds a)) ++ snd direct /\
  Main.focusRegion (fst after) = Main.focusRegion (fst direct) /\
  Main.pendingSounds (fst after) = [] /\
  Main.pendingSounds (fst direct) = [] /\
  Main.audioUnlocked (fst after) = true.
Proof.
  intros Ha locked direct after. subst locked direct after.
  destruct (onEvents_paired evs a
              {| Main.audioUnlocked := true;
                 Main.focusRegion := Main.focusRegion a;
                 Main.pendingSounds := [] |} Ha eq_refl eq_refl)
    as (Hs & _ & _ & Hr & Hp & q & Hq & Hpl).
  unfold Main.unlocked.
  destruct (flush_plays_pending
              {| Main.audioUnlocked := true;
                 Main.focusRegion := Main.focusRegion (fst (Main.onEvents a evs));
                 Main.pendingSounds :=
                   Main.pendingSounds (fst (Main.onEvents a evs)) |})
    as (Hf1 & Hf2 & Hf3 & Hf4).
  cbn [Main.pendingSounds Main.focusRegion Main.audioUnlocked] in *.
  split; [exact Hs |]. split.
  - by rewrite Hf1, Hq, map_app, concat_app, Hpl.
  - split; [congruence |]. split; [exact Hf2 |]. split; [exact Hp |].
    exact Hf4.
Qed.

Lemma queued_sounds_play_in_order_at_unlock_witness :
  snd (Main.unlocked
         (fst (Main.onEvents Main.start
                 [nav right edge; nav down edge; nav left edge;
                  nav left repeat; nav up edge]))) =
  [Main.playNavSound; Main.playCarouselSound; Main.playCarouselNavSound;
   Main.playNavSound].
Proof.
  destruct (queued_sounds_play_in_order_at_unlock
              [nav right edge; nav down edge; nav left edge;
               nav left repeat; nav up edge] Main.start eq_refl)
    as (_ & H & _).
  rewrite H. reflexivity.
Defined.

(** The focus region follows the vertical edges: from either known
    region, a down edge leaves it on the carousel and an up edge on the
    navigation bar; horizontal edges and repeats leave it where it was.
    The region never takes another value. *)
Theorem vertical_edges_set_the_focus_region
        (a : Main.Audio) (d : Direction) (mo : Mode) :
  knownRegion a ->
  let a' := fst (Main.handleNavSound a d mo) in
  knownRegion a' /\
  (mo = edge -> d = down -> Main.focusRegion a' = "carousel"%string) /\
  (mo = edge -> d = up -> Main.focusRegion a' = "nav"%string) /\
  (mo = repeat \/ d = left \/ d = right ->
   Main.focusRegion a' = Main.focusRegion a).
Proof.
  intros Hk. unfold knownRegion, Main.handleNavSound, Main.queueOrPlay.
  destruct Hk as [Hr | Hr]; rewrite Hr;
    destruct mo, d; vm_compute; destruct a as [u r q]; cbn in Hr; subst r;
    destruct u;
    (split; [first [by left | by right] |]);
    (split; [intros; first [done | congruence] |]);
    (split; [intros; first [done | congruence] |]);
    intros [? | [? | ?]]; first [done | congruence].
Qed.

Lemma vertical_edges_set_the_focus_region_witness :
  Main.focusRegion
    (fst (Main.handleNavSound
            (fst (Main.handleNavSound Main.start down edge)) down edge))
  = "carousel"%string.
Proof.
  destruct (vertical_edges_set_the_focus_region
              (fst (Main.handleNavSound Main.start down edge)) down edge)
    as (_ & H & _).
  - right. reflexivity.
  - by apply H.
Defined.

(** ** Sounds along the frame loop *)

Lemma playType_at_most_one (type : string) :
  (length (Main.playType type) <= 1)%nat.
Proof.
  unfold Main.playType. repeat case_decide; cbn; lia.
Qed.

Lemma queueOrPlay_at_most_one (a : Main.Audio) (type : string) :
  (length (snd (Main.queueOrPlay a type)) <= 1)%nat /\
  (length (Main.pendingSounds (fst (Main.queueOrPlay a type)))
   <= S (length (Main.pendingSounds a)))%nat.
Proof.
  unfold Main.queueOrPlay. destruct (Main.audioUnlocked a); cbn.
  - split; [apply playType_at_most_one | lia].
  - rewrite length_app. cbn. lia.
Qed.

Lemma handleNavSound_at_most_one (a : Main.Audio) (d : Direction)
      (mo : Mode) :
  (length (snd (Main.handleNavSound a d mo)) <= 1)%nat /\
  (length (Main.pendingSounds (fst (Main.handleNavSound a d mo)))
   <= S (length (Main.pendingSounds a)))%nat.
Proof.
  unfold Main.handleNavSound.
  repeat match goal with
         | |- context [if ?b then _ else _] => destruct b
         end;
    first [apply (queueOrPlay_at_most_one (Main.setRegion a _))
          | apply queueOrPlay_at_most_one
          | cbn; lia].
Qed.

(** The listeners see a frame's select event, which leaves the sound
    state alone, and then its [nav] events. *)
Lemma onEvents_of_update (a : Main.Audio) (m : t) (f : Frame) :
  Main.onEvents a (snd (update m f)) =
  Main.onEvents a (navs (snd (update m f))).
Proof.
  rewrite update_navs, update_snd.
  destruct (selectEvents_cases (poll m f) f) as [-> | [s ->]];
    [reflexivity |].
  cbn. by destruct (Main.onEvents a _).
Qed.

(** Along the frame loop the listeners make at most one play call and
    queue at most one sound per frame, and none at all on a frame that
    continues a run of a held direction or that resolves no direction:
    only the first frame of a run can sound. *)
Theorem only_the_first_frame_of_a_run_sounds
        (m : t) (fs : list Frame) (i : nat) (r : t * list Event)
        (a : Main.Audio) :
  run m fs !! i = Some r ->
  (length (snd (Main.onEvents a (snd r))) <= 1)%nat /\
  (length (Main.pendingSounds (fst (Main.onEvents a (snd r))))
   <= S (length (Main.pendingSounds a)))%nat /\
  ((exists j d, i = S j /\ holds (dirs m fs) j d /\
                holds (dirs m fs) (S j) d) ->
   Main.onEvents a (snd r) = (a, [])) /\
  (dirs m fs !! i = Some None -> Main.onEvents a (snd r) = (a, [])).
Proof.
  intros Hr. rewrite run_lookup in Hr.
  destruct (fs !! i) as [f |] eqn:Hf; [| discriminate].
  cbn in Hr. injection Hr as <-.
  rewrite onEvents_of_update. rewrite <- (navsAt_frame _ _ _ _ Hf).
  split; [| split; [| split]].
  - rewrite (navsAt_frame _ _ _ _ Hf), update_navs.
    destruct (navStep_cases (poll (before m fs i) f) (ts f)
                (resolved (before m fs i) f)) as [-> | (d & mo & _ & ->)];
      cbn; [lia |].
    rewrite app_nil_r. apply handleNavSound_at_most_one.
  - rewrite (navsAt_frame _ _ _ _ Hf), update_navs.
    destruct (navStep_cases (poll (before m fs i) f) (ts f)
                (resolved (before m fs i) f)) as [-> | (d & mo & _ & ->)];
      cbn; [lia |].
    apply handleNavSound_at_most_one.
  - intros (j & d & -> & Hj & HSj).
    destruct (held_no_edge m fs j d Hj HSj) as [-> | [-> _]]; reflexivity.
  - intros Hnone. by rewrite (neutral_silent m fs i Hnone).
Qed.

Lemma only_the_first_frame_of_a_run_sounds_witness :
  (length (snd (Main.onEvents Main.start
                  (snd (update (before new heldRight 2)
                               (keyFrame 225 (Some right)))))) <= 1)%nat /\
  Main.onEvents Main.start
    (snd (update (before new heldRight 2) (keyFrame 225 (Some right))))
  = (Main.start, []).
Proof.
  destruct (only_the_first_frame_of_a_run_sounds new heldRight 2
              (update (before new heldRight 2) (keyFrame 225 (Some right)))
              Main.start eq_refl) as (H1 & _ & H3 & _).
  split; [exact H1 |].
  apply H3. exists 1%nat, right.
  split; [reflexivity |]. split; apply heldRight_holds; lia.
Defined.

(** ** Holding the select button *)

(** With the keyboard's SELECT idle on two successive frames, [update]
    does not emit select on both: after a select from the pad's A button
    the button has to be released, or the pad polled away, before the next
    one. *)
Theorem pad_select_not_on_successive_frames (m : t) (f1 f2 : Frame) :
  kSelect f1 = false ->
  kSelect f2 = false ->
  selects (snd (update m f1)) <> [] ->
  selects (snd (update (fst (update m f1)) f2)) = [].
Proof.
  intros Hk1 Hk2. rewrite !update_selects. unfold selectEvents.
  rewrite Hk1, Hk2, !orb_false_r, !poll_gamepad, update_gamepad.
  destruct (preferGamepad (poll m f1)); [| done].
  destruct (GamepadManager.justPressed
              (GamepadManager.update (gamepad m) (pads f1)) "A") eqn:E1;
    [intros _ | done].
  destruct (justPressed_true_inv _ _ _ E1) as (p1 & i & H1 & Hn & Hd).
  assert (GamepadManager.justPressed
            (GamepadManager.update
               (GamepadManager.update (gamepad m) (pads f1)) (pads f2)) "A"
          = false) as ->.
  { destruct (GamepadManager.firstConnected (pads f2)) as [p2 |] eqn:H2.
    - rewrite (justPressed_two_polls _ _ _ _ _ _ _ H1 H2 Hn), Hd.
      apply andb_false_r.
    - by rewrite (update_disconnected _ _ H2). }
  by destruct (preferGamepad _).
Qed.

Lemma pad_select_not_on_successive_frames_witness :
  selects (snd (update new (aFrame 0 true))) = [select src_gamepad] /\
  selects (snd (update (fst (update new (aFrame 0 true))) (aFrame 16 true)))
  = [].
Proof.
  split; [reflexivity |].
  apply (pad_select_not_on_successive_frames new (aFrame 0 true)
           (aFrame 16 true)); [reflexivity | reflexivity | discriminate].
Defined.
